(** * Website-Translator: the translation cache, the element policies and the
    per-locale document transformer

    The repository holds two variants of one script: [src/index.js] and an
    unnamed sibling ([src/unnamed/part_000]).  Both are embedded here, the
    shared [translateText] once, the diverging parts in the modules
    [IndexJs] and [Part000].

    Conventions of the embedding.
    - A JavaScript string is a Rocq [string], read as the UTF-8 bytes of the
      text.  Prefix, substring, split and join on well-formed UTF-8 agree
      with the same operations on code units.
    - [toLowerCase] is the ASCII case mapping; other bytes are kept.  The
      brand token is ASCII, and no non-ASCII letter lowers to a string that
      completes the token, so the test [includes (toLowerCase t) brand]
      is exact.
    - [trim] removes the ASCII white space (TAB, LF, VT, FF, CR, SPACE).
    - The translation provider ([google-translate-api-x]) is an oracle that
      answers from the history of requests: [Some s] is a resolved promise
      with [res.text = s], [None] a rejected one.
    - The DOM is a heap of nodes addressed by index, so that a node list
      obtained before a mutation still names the nodes it named. *)

From stdpp Require Import gmap strings list.
From Stdlib Require Import Ascii.

Local Open Scope char_scope.
Local Open Scope stdpp_scope.

(** ** JavaScript strings *)

Module JsString.

Definition brand : string := "evaluating.tools".

(** The copyright sign U+00A9, and what [src/index.js] holds in its place:
    U+00C2 followed by U+00A9. *)
Definition copyright : string :=
  String (ascii_of_nat 194) (String (ascii_of_nat 169) "").
Definition copyright_mangled : string :=
  String (ascii_of_nat 195) (String (ascii_of_nat 130) copyright).

Definition lower_char (c : ascii) : ascii :=
  let n := nat_of_ascii c in
  if (65 <=? n)%nat && (n <=? 90)%nat then ascii_of_nat (n + 32) else c.

Fixpoint toLowerCase (s : string) : string :=
  match s with
  | "" => ""
  | String c s' => String (lower_char c) (toLowerCase s')
  end.

(** [strip_prefix p s] is what follows [p] in [s] when [s] starts with
    [p]. *)
Fixpoint strip_prefix (p s : string) : option string :=
  match p, s with
  | "", _ => Some s
  | String _ _, "" => None
  | String a p', String b s' =>
      if Ascii.eqb a b then strip_prefix p' s' else None
  end.

Definition startsWith (s p : string) : bool :=
  match strip_prefix p s with Some _ => true | None => false end.

(** [s.endsWith(p)]: some suffix of [s] is [p]. *)
Fixpoint endsWith (s p : string) : bool :=
  String.eqb s p ||
  match s with
  | "" => false
  | String _ s' => endsWith s' p
  end.

(** [cut s p]: the text before and after the first occurrence of [p]. *)
Fixpoint cut (s p : string) : option (string * string) :=
  match strip_prefix p s with
  | Some after => Some ("", after)
  | None =>
      match s with
      | "" => None
      | String c s' =>
          match cut s' p with
          | Some (before, after) => Some (String c before, after)
          | None => None
          end
      end
  end.

Definition includes (s p : string) : bool :=
  match cut s p with Some _ => true | None => false end.

Definition is_space (c : ascii) : bool :=
  let n := nat_of_ascii c in
  ((9 <=? n)%nat && (n <=? 13)%nat) || (n =? 32)%nat.

Fixpoint trimStart (s : string) : string :=
  match s with
  | "" => ""
  | String c s' => if is_space c then trimStart s' else s
  end.

(** The white space that ends the string is dropped: a white space
    character goes when nothing is left after it. *)
Fixpoint trimEnd (s : string) : string :=
  match s with
  | "" => ""
  | String c s' =>
      match trimEnd s' with
      | "" => if is_space c then "" else String c ""
      | r => String c r
      end
  end.

Definition trim (s : string) : string := trimEnd (trimStart s).

(** [s.split(sep)] for a non-empty [sep]: scan from the left, close the
    current piece at every match and resume after it.  [skip] counts the
    characters of a match still to be passed over. *)
Fixpoint split_go (sep s : string) (skip : nat) (cur : string)
  : list string :=
  match s with
  | "" => [cur]
  | String c s' =>
      match skip with
      | S k => split_go sep s' k cur
      | O =>
          if startsWith s sep
          then cur :: split_go sep s' (String.length sep - 1) ""
          else split_go sep s' 0 (cur +:+ String c "")
      end
  end.

Fixpoint chars (s : string) : list string :=
  match s with
  | "" => []
  | String c s' => String c "" :: chars s'
  end.

Definition split (s sep : string) : list string :=
  match sep with
  | "" => chars s
  | _ => split_go sep s 0 ""
  end.

Fixpoint join (sep : string) (l : list string) : string :=
  match l with
  | [] => ""
  | x :: l' =>
      match l' with
      | [] => x
      | _ => x +:+ sep +:+ join sep l'
      end
  end.

(** GetSubstitution for a string pattern: [$$], [$&], [$`] and [$'] are
    expanded, every other [$] sequence stands for itself (a string
    pattern has no captures). *)
Fixpoint getSubstitution (matched before after tpl : string) : string :=
  match tpl with
  | "" => ""
  | String c r =>
      if Ascii.eqb c "$" then
        match r with
        | String d r' =>
            if Ascii.eqb d "$" then String "$" (getSubstitution matched before after r')
            else if Ascii.eqb d "&" then matched +:+ getSubstitution matched before after r'
            else if Ascii.eqb d "`" then before +:+ getSubstitution matched before after r'
            else if Ascii.eqb d "'" then after +:+ getSubstitution matched before after r'
            else String c (getSubstitution matched before after r)
        | "" => String c ""
        end
      else String c (getSubstitution matched before after r)
  end.

(** [s.replace(pat, tpl)] with a string pattern: the first occurrence
    only. *)
Definition replace (s pat tpl : string) : string :=
  match cut s pat with
  | None => s
  | Some (before, after) =>
      before +:+ getSubstitution pat before after tpl +:+ after
  end.

(** [s.replace(/\\/g, "/")] *)
Fixpoint backslashes_to_slashes (s : string) : string :=
  match s with
  | "" => ""
  | String c s' =>
      String (if Ascii.eqb c "\" then "/"%char else c)
             (backslashes_to_slashes s')
  end.

(** [s.replace(/\/+$/, "")]: the slashes that end the string are
    dropped. *)
Fixpoint strip_trailing_slashes (s : string) : string :=
  match s with
  | "" => ""
  | String c s' =>
      match strip_trailing_slashes s' with
      | "" => if Ascii.eqb c "/" then "" else String c ""
      | r => String c r
      end
  end.

(** [s.replace(/^\.+/, "")] *)
Fixpoint strip_leading_dots (s : string) : string :=
  match s with
  | "" => ""
  | String c s' => if Ascii.eqb c "." then strip_leading_dots s' else s
  end.


End JsString.
Import JsString.

(** ** The state of a run and the monad of the scripts

    Module-level state of the script ([translationCache]), the traffic with
    the provider, the console, the files written, and the document under
    transformation.  An exception leaves the state as it was when it was
    thrown. *)

Inductive exn :=
  | ProviderFailure (text lang : string)  (* rejected promise of [translate] *)
  | TypeError (what : string)             (* property access on null *)
  | FsError (lang relativePath filePath : string).

Inductive log_entry :=
  | ErrorTranslatingText (text lang : string) (err : exn)
  | ErrorTranslatingElement (textContent lang : string) (err : exn)
  | ErrorProcessingFile (filePath lang : string) (err : exn)
  | Translated (filePath lang : string)
  | SkippingCreation (code : string).

Inductive node :=
  | Text (nodeValue : string)
  | Comment (data : string)
  | Element (tagName : string) (attributes : list (string * string))
            (childNodes : list nat).

(** A document: the heap of its nodes, attached or not, and the index of
    its [<html>] element. *)
Record document := Document {
  nodes : list node;
  documentElement : nat
}.

(** A file written by [fs.writeFileSync]: the arguments of the two
    [path.join] calls and the document serialized. *)
Record output_file := OutputFile {
  out_lang : string;
  out_relativePath : string;
  out_filePath : string;
  out_document : document
}.

Record State := MkState {
  translationCache : gmap string string;
  requests : list (string * string);
  console : list log_entry;
  written : list output_file;
  dom : document
}.

Inductive result (A : Type) :=
  | Ok (a : A)
  | Throw (e : exn).
Arguments Ok {A} a.
Arguments Throw {A} e.

Definition M (A : Type) : Type := State → State * result A.

#[global] Instance M_ret : MRet M := λ A a st, (st, Ok a).
#[global] Instance M_bind : MBind M := λ A B f m st,
  match m st with
  | (st', Ok a) => f a st'
  | (st', Throw e) => (st', Throw e)
  end.

Definition throw {A} (e : exn) : M A := λ st, (st, Throw e).

(** [try { body } catch (err) { handler }] *)
Definition try_catch {A} (body : M A) (handler : exn → M A) : M A := λ st,
  match body st with
  | (st', Ok a) => (st', Ok a)
  | (st', Throw e) => handler e st'
  end.

Definition get_state : M State := λ st, (st, Ok st).

Definition with_cache (st : State) (c : gmap string string) : State :=
  MkState c (requests st) (console st) (written st) (dom st).
Definition with_requests (st : State) (rs : list (string * string)) : State :=
  MkState (translationCache st) rs (console st) (written st) (dom st).
Definition with_console (st : State) (l : list log_entry) : State :=
  MkState (translationCache st) (requests st) l (written st) (dom st).
Definition with_written (st : State) (fs : list output_file) : State :=
  MkState (translationCache st) (requests st) (console st) fs (dom st).
Definition with_dom (st : State) (d : document) : State :=
  MkState (translationCache st) (requests st) (console st) (written st) d.

(** [translationCache.set(key, value)] *)
Definition cache_set (key value : string) : M unit := λ st,
  (with_cache st (<[key := value]> (translationCache st)), Ok tt).

(** [console.log] and [console.error] *)
Definition console_log (entry : log_entry) : M unit := λ st,
  (with_console st (console st ++ [entry]), Ok tt).

Definition set_dom (d : document) : M unit := λ st, (with_dom st d, Ok tt).

(** [for (const x of xs) body(x)] *)
Fixpoint for_of {A} (xs : list A) (body : A → M unit) : M unit :=
  match xs with
  | [] => mret tt
  | x :: xs' => body x ;; for_of xs' body
  end.

(** [Promise.all] over promises already started: every one of them runs,
    and the result is rejected as soon as one of them is. *)
Fixpoint promise_all {A} (ps : list (M A)) : M (list A) :=
  match ps with
  | [] => mret []
  | p :: ps' => λ st,
      let '(st1, r) := p st in
      let '(st2, rs) := promise_all ps' st1 in
      (st2, match r, rs with
            | Ok a, Ok l => Ok (a :: l)
            | Throw e, _ => Throw e
            | Ok _, Throw e => Throw e
            end)
  end.

Section Script.

(** The provider: [translate history text lang] answers the request
    [(text, lang)] made after the requests of [history]. *)
Variable translate : list (string * string) → string → string → option string.

(** [fs.mkdirSync] and [fs.writeFileSync] succeed on these arguments. *)
Variable writable : string → string → string → bool.

(** [translate(text, { to: lang, forceTo: true }).then((res) => res.text)] *)
Definition request (text lang : string) : M string := λ st,
  (with_requests st (requests st ++ [(text, lang)]),
   match translate (requests st) text lang with
   | Some s => Ok s
   | None => Throw (ProviderFailure text lang)
   end).

(** What the provider answers to the requests for the segments [segs],
    made in this order after [history]. *)
Fixpoint answers (history : list (string * string)) (lang : string)
    (segs : list string) : list (option string) :=
  match segs with
  | [] => []
  | s :: segs' =>
      translate history (trim s) lang
        :: answers (history ++ [(trim s, lang)]) lang segs'
  end.

Definition cacheKey (lang text : string) : string := lang +:+ ":" +:+ text.

(** [translateText], the same in both variants. *)
Definition translateText (text lang : string) : M string :=
  st ← get_state;
  match translationCache st !! cacheKey lang text with
  | Some cached => mret cached
  | None =>
      if includes (toLowerCase text) brand then
        let parts := split text brand in
        translatedParts ← promise_all
          (imap (λ index part,
                   if (index =? length parts - 1)%nat
                   then mret part
                   else request (trim part) lang) parts);
        let result := join brand translatedParts in
        cache_set (cacheKey lang text) result ;;
        mret result
      else
        try_catch
          (result ← request (trim text) lang;
           cache_set (cacheKey lang text) result ;;
           mret result)
          (λ err,
             console_log (ErrorTranslatingText text lang err) ;;
             mret text)
  end.

(** [translateText(value, lang)] where [value] comes from
    [getAttribute] and may be [null]: the template literal turns [null]
    into the text ["null"] for the key, and on a miss
    [null.toLowerCase()] is a [TypeError]. *)
Definition translateTextOrNull (value : option string) (lang : string)
  : M string :=
  match value with
  | Some text => translateText text lang
  | None =>
      st ← get_state;
      match translationCache st !! cacheKey lang "null" with
      | Some cached => mret cached
      | None => throw (TypeError "toLowerCase of null")
      end
  end.

End Script.


(** ** The DOM

    Elements keep their lower-case local name; [tagName.toLowerCase()] is
    that name.  Selectors are the ones the scripts use: a list of
    alternatives, each a tag name with attribute tests.  The locale codes
    put into a selector are taken to hold no quote, backslash or line
    break. *)

Module Dom.

Fixpoint attr_get (name : string) (attrs : list (string * string))
  : option string :=
  match attrs with
  | [] => None
  | (k, v) :: attrs' =>
      if String.eqb k name then Some v else attr_get name attrs'
  end.

(** [setAttribute]: the value of the attribute is replaced where it
    stands; a new attribute goes to the end. *)
Fixpoint attr_set (name value : string) (attrs : list (string * string))
  : list (string * string) :=
  match attrs with
  | [] => [(name, value)]
  | (k, v) :: attrs' =>
      if String.eqb k name then (k, value) :: attrs'
      else (k, v) :: attr_set name value attrs'
  end.

Record compound := Compound {
  sel_tag : string;
  sel_attrs : list (string * string)
}.
Definition selector := list compound.

(** Of the attributes the scripts select on, [rel] and [hreflang] are
    compared without regard to letter case in an HTML document. *)
Definition ci_attribute (name : string) : bool :=
  String.eqb name "rel" || String.eqb name "hreflang".

Definition attr_matches (attrs : list (string * string))
    (test : string * string) : bool :=
  match attr_get test.1 attrs with
  | Some v =>
      if ci_attribute test.1
      then String.eqb (toLowerCase v) (toLowerCase test.2)
      else String.eqb v test.2
  | None => false
  end.

Definition matches (sel : selector) (n : node) : bool :=
  match n with
  | Element tag attrs _ =>
      existsb (λ c, String.eqb tag (sel_tag c)
                    && forallb (attr_matches attrs) (sel_attrs c)) sel
  | _ => false
  end.

(** The elements below (and including) [id], in document order.  A tree
    of [n] nodes is no deeper than [n], which is the fuel given. *)
Fixpoint elements (fuel : nat) (ns : list node) (id : nat) : list nat :=
  match fuel with
  | O => []
  | S fuel' =>
      match ns !! id with
      | Some (Element _ _ children) =>
          id :: flat_map (elements fuel' ns) children
      | _ => []
      end
  end.

(** The data of the text nodes below [id], in document order. *)
Fixpoint text_of (fuel : nat) (ns : list node) (id : nat) : string :=
  match fuel with
  | O => ""
  | S fuel' =>
      match ns !! id with
      | Some (Text v) => v
      | Some (Element _ _ children) =>
          foldr (λ c acc, text_of fuel' ns c +:+ acc) "" children
      | _ => ""
      end
  end.

Definition node_at (e : nat) : M node := λ st,
  match nodes (dom st) !! e with
  | Some n => (st, Ok n)
  | None => (st, Throw (TypeError "not a node"))
  end.

Definition update_node (e : nat) (n : node) : M unit := λ st,
  (with_dom st (Document (<[e := n]> (nodes (dom st)))
                         (documentElement (dom st))), Ok tt).

(** A new node, attached nowhere. *)
Definition alloc (n : node) : M nat := λ st,
  (with_dom st (Document (nodes (dom st) ++ [n])
                         (documentElement (dom st))),
   Ok (length (nodes (dom st)))).

Definition createElement (tag : string) : M nat := alloc (Element tag [] []).

Definition getAttribute (e : nat) (name : string) : M (option string) :=
  n ← node_at e;
  match n with
  | Element _ attrs _ => mret (attr_get name attrs)
  | _ => throw (TypeError "getAttribute")
  end.

Definition hasAttribute (e : nat) (name : string) : M bool :=
  v ← getAttribute e name; mret (bool_decide (is_Some v)).

Definition setAttribute (e : nat) (name value : string) : M unit :=
  n ← node_at e;
  match n with
  | Element tag attrs children =>
      update_node e (Element tag (attr_set name value attrs) children)
  | _ => throw (TypeError "setAttribute")
  end.

(** [parent.appendChild(child)] for a [child] just created. *)
Definition appendChild (parent child : nat) : M unit :=
  n ← node_at parent;
  match n with
  | Element tag attrs children =>
      update_node parent (Element tag attrs (children ++ [child]))
  | _ => throw (TypeError "appendChild")
  end.

Definition tagName (e : nat) : M string :=
  n ← node_at e;
  match n with
  | Element tag _ _ => mret tag
  | _ => throw (TypeError "tagName")
  end.

Definition childNodes (e : nat) : M (list nat) :=
  n ← node_at e;
  match n with
  | Element _ _ children => mret children
  | _ => mret []
  end.

Definition is_element (ns : list node) (id : nat) : bool :=
  match ns !! id with Some (Element _ _ _) => true | _ => false end.

(** [element.children] *)
Definition children (e : nat) : M (list nat) :=
  cs ← childNodes e;
  st ← get_state;
  mret (List.filter (λ c, is_element (nodes (dom st)) c) cs).

(** [node.textContent] *)
Definition textContent (e : nat) : M string :=
  n ← node_at e;
  st ← get_state;
  match n with
  | Text v | Comment v => mret v
  | Element _ _ _ =>
      mret (text_of (S (length (nodes (dom st)))) (nodes (dom st)) e)
  end.

(** [node.textContent = value]: the children of an element give way to
    one text node, or to none for the empty string. *)
Definition set_textContent (e : nat) (value : string) : M unit :=
  n ← node_at e;
  match n with
  | Text _ => update_node e (Text value)
  | Comment _ => update_node e (Comment value)
  | Element tag attrs _ =>
      if String.eqb value "" then update_node e (Element tag attrs [])
      else t ← alloc (Text value); update_node e (Element tag attrs [t])
  end.

(** [textNode.nodeValue = value] *)
Definition set_nodeValue (e : nat) (value : string) : M unit :=
  n ← node_at e;
  match n with
  | Text _ => update_node e (Text value)
  | Comment _ => update_node e (Comment value)
  | Element _ _ _ => mret tt
  end.

Definition querySelectorAll (sel : selector) : M (list nat) :=
  st ← get_state;
  let ns := nodes (dom st) in
  mret (List.filter (λ id, match ns !! id with
                      | Some n => matches sel n
                      | None => false
                      end)
               (elements (S (length ns)) ns (documentElement (dom st)))).

Definition querySelector (sel : selector) : M (option nat) :=
  l ← querySelectorAll sel; mret (head l).

(** [document.head]: the first [head] child of the [html] element. *)
Definition document_head : M (option nat) :=
  st ← get_state;
  let ns := nodes (dom st) in
  match ns !! documentElement (dom st) with
  | Some (Element _ _ cs) =>
      mret (head (List.filter (λ c, match ns !! c with
                               | Some (Element tag _ _) => String.eqb tag "head"
                               | _ => false
                               end) cs))
  | _ => mret None
  end.

(** [document.head.appendChild(child)] *)
Definition head_appendChild (child : nat) : M unit :=
  h ← document_head;
  match h with
  | Some h => appendChild h child
  | None => throw (TypeError "appendChild of null")
  end.

Definition tag (name : string) : selector := [Compound name []].
Definition tag_with (name : string) (tests : list (string * string))
  : selector := [Compound name tests].

(** The selector list [h1, h2, h3, h4, span, a, button, p, label,
    option, div]. *)
Definition elementsQuery : selector :=
  (λ t, Compound t []) <$>
    ["h1"; "h2"; "h3"; "h4"; "span"; "a"; "button"; "p"; "label";
     "option"; "div"].

(** The alternate link of a language: a [link] whose [rel] is
    [alternate] and whose [hreflang] is the language. *)
Definition alternateLink (lang : string) : selector :=
  tag_with "link" [("rel", "alternate"); ("hreflang", lang)].

End Dom.
Import Dom.

(** An entry of [languages.json]. *)
Record LocaleDescriptor := Locale {
  code : string;
  createnew : bool
}.

(** [fs.mkdirSync(langFolder, { recursive: true })],
    [fs.writeFileSync(outputFilePath, translatedDom.serialize(), "utf8")]
    and the [console.log] that follows. *)
Definition save (writable : string → string → string → bool)
    (filePath relativePath lang : string) : M unit := λ st,
  if writable lang relativePath filePath
  then console_log (Translated filePath lang)
         (with_written st
            (written st ++ [OutputFile lang relativePath filePath (dom st)]))
  else (st, Throw (FsError lang relativePath filePath)).

(** ** [src/index.js] *)

Module IndexJs.

Definition constructCanonicalUrl (relativePath lang : string) : string :=
  let cleanPath :=
    strip_trailing_slashes (backslashes_to_slashes relativePath) in
  let cleanPath :=
    if String.eqb cleanPath "." || String.eqb cleanPath "" then ""
    else if negb (endsWith cleanPath ".html") then cleanPath +:+ "/"
    else cleanPath in
  "https://evaluating.tools/" +:+ lang +:+ "/" +:+ cleanPath.

Section Script.

Variable translate : list (string * string) → string → string → option string.
Variable writable : string → string → string → bool.

Definition translateElementText (element : nat) (lang : string) : M unit :=
  tc ← textContent element;
  if String.eqb (trim tc) ""
     || startsWith (trim tc) copyright_mangled
     || includes (toLowerCase tc) brand
  then mret tt
  else
    try_catch
      (cn ← childNodes element;
       if (0 <? length cn)%nat then
         for_of cn (λ child,
           n ← node_at child;
           match n with
           | Text nodeValue =>
               translatedText ← translateText translate (trim nodeValue) lang;
               set_nodeValue child translatedText
           | _ => mret tt
           end)
       else
         tc' ← textContent element;
         translatedText ← translateText translate (trim tc') lang;
         set_textContent element translatedText)
      (λ err,
         tc' ← textContent element;
         console_log (ErrorTranslatingElement tc' lang err)).

Definition translateAnchorElement (element : nat) (lang : string) : M unit :=
  originalHref ← getAttribute element "href";
  match originalHref with
  | Some href =>
      if negb (String.eqb href "") && includes href "/en/"
      then setAttribute element "href"
             (replace href "/en/" ("/" +:+ lang +:+ "/"))
      else mret tt
  | None => mret tt
  end ;;
  tc ← textContent element;
  let text := trim tc in
  if negb (String.eqb text "") then
    translatedText ← translateText translate text lang;
    set_textContent element translatedText
  else mret tt.

(** The update of the alternates for all languages, on the document
    parsed first. *)
Definition updateAlternates (relativePath : string)
    (languages : list LocaleDescriptor) : M unit :=
  for_of languages (λ langObj,
    let lang := code langObj in
    existingAltLink ← querySelector (alternateLink lang);
    match existingAltLink with
    | Some _ => mret tt
    | None =>
        linkTag ← createElement "link";
        setAttribute linkTag "rel" "alternate" ;;
        setAttribute linkTag "hreflang" lang ;;
        setAttribute linkTag "href" (constructCanonicalUrl relativePath lang) ;;
        head_appendChild linkTag
    end).

(** Translate an attribute [content] of the first element selected, as
    done for [og:title], [og:description], [title] and
    [description]. *)
Definition translateMetaContent (sel : selector) (lang : string) : M unit :=
  meta ← querySelector sel;
  match meta with
  | Some meta =>
      original ← getAttribute meta "content";
      translated ← translateTextOrNull translate original lang;
      setAttribute meta "content" translated
  | None => mret tt
  end.

(** The body of the [try] block: one document for one language. *)
Definition translateFor (content : document)
    (filePath relativePath lang : string) : M unit :=
  set_dom content ;;
  htmlTag ← querySelector (tag "html");
  match htmlTag with
  | Some htmlTag => setAttribute htmlTag "lang" lang
  | None => mret tt
  end ;;
  canonicalLink ← querySelector (tag_with "link" [("rel", "canonical")]);
  canonicalLink ←
    match canonicalLink with
    | Some l => mret l
    | None => l ← createElement "link"; head_appendChild l ;; mret l
    end;
  setAttribute canonicalLink "rel" "canonical" ;;
  setAttribute canonicalLink "href" (constructCanonicalUrl relativePath lang) ;;
  translateMetaContent (tag_with "meta" [("property", "og:title")]) lang ;;
  translateMetaContent (tag_with "meta" [("property", "og:description")]) lang ;;
  metaOgUrl ← querySelector (tag_with "meta" [("property", "og:url")]);
  match metaOgUrl with
  | Some m => setAttribute m "content" (constructCanonicalUrl relativePath lang)
  | None => mret tt
  end ;;
  translateMetaContent (tag_with "meta" [("name", "title")]) lang ;;
  translateMetaContent (tag_with "meta" [("name", "description")]) lang ;;
  elements ← querySelectorAll elementsQuery;
  for_of elements (λ element,
    name ← tagName element;
    if String.eqb (toLowerCase name) "a"
    then translateAnchorElement element lang
    else translateElementText element lang) ;;
  save writable filePath relativePath lang.

(** The loop through the languages that creates the new files. *)
Definition createFiles (content : document) (filePath relativePath : string)
    (languages : list LocaleDescriptor) : M unit :=
  for_of languages (λ langObj,
    if negb (createnew langObj) then mret tt
    else
      let lang := code langObj in
      try_catch
        (translateFor content filePath relativePath lang)
        (λ err, console_log (ErrorProcessingFile filePath lang err))).

(** [content] is the file as parsed by [new JSDOM(content)]. *)
Definition translateHTML (content : document) (filePath relativePath : string)
    (languages : list LocaleDescriptor) : M unit :=
  set_dom content ;;
  updateAlternates relativePath languages ;;
  createFiles content filePath relativePath languages.

End Script.

End IndexJs.

(** ** [src/unnamed/part_000] *)

Module Part000.

Definition cleanRelativePath (relativePath : string) : string :=
  strip_leading_dots (strip_trailing_slashes relativePath).

Definition canonicalUrl (relativePath lang : string) : string :=
  if String.eqb (cleanRelativePath relativePath) "."
     || String.eqb (cleanRelativePath relativePath) ""
  then "https://evaluating.tools/" +:+ lang +:+ "/"
  else "https://evaluating.tools/" +:+ lang +:+ "/"
         +:+ cleanRelativePath relativePath +:+ "/".

(** The [href] given to an alternate link. *)
Definition alternateUrl (relativePath lang : string) : string :=
  "https://evaluating.tools/" +:+ lang +:+ "/" +:+ relativePath.

Section Script.

Variable translate : list (string * string) → string → string → option string.
Variable writable : string → string → string → bool.

Definition translateElementText (element : nat) (lang : string) : M unit :=
  tc ← textContent element;
  let text := trim tc in
  if String.eqb text "" then mret tt
  else if startsWith text copyright || includes (toLowerCase text) brand
  then mret tt
  else
    translatedText ← translateText translate text lang;
    set_textContent element translatedText.

(** The alternate link tags for all languages. *)
Definition addAlternates (relativePath : string)
    (languages : list LocaleDescriptor) : M unit :=
  for_of languages (λ alternateLangObj,
    let alternateLang := code alternateLangObj in
    existingAltLink ← querySelector (alternateLink alternateLang);
    match existingAltLink with
    | Some _ => mret tt
    | None =>
        linkTag ← createElement "link";
        setAttribute linkTag "rel" "alternate" ;;
        setAttribute linkTag "hreflang" alternateLang ;;
        setAttribute linkTag "href" (alternateUrl relativePath alternateLang) ;;
        head_appendChild linkTag
    end).

(** The rewrite of the anchor's [href] from [/en/] to the language. *)
Definition updateAnchorHref (element : nat) (lang : string) : M unit :=
  present ← hasAttribute element "href";
  if (present : bool) then
    href ← getAttribute element "href";
    match href with
    | Some href =>
        if includes href "/en/"
        then setAttribute element "href"
               (replace href "/en/" ("/" +:+ lang +:+ "/"))
        else mret tt
    | None => mret tt
    end
  else mret tt.

(** The body of the loop over the selected elements. *)
Definition translateSelected (element : nat) (lang : string) : M unit :=
  name ← tagName element;
  if String.eqb (toLowerCase name) "a" then
    cs ← children element;
    (if (0 <? length cs)%nat
     then for_of cs (λ child, translateElementText child lang)
     else translateElementText element lang) ;;
    updateAnchorHref element lang
  else
    tc ← textContent element;
    if String.eqb (toLowerCase name) "div" && negb (String.eqb (trim tc) "")
    then translateElementText element lang
    else translateElementText element lang.

(** The body of the [try] block: one document for one language. *)
Definition translateFor (content : document)
    (filePath relativePath lang : string)
    (languages : list LocaleDescriptor) : M unit :=
  set_dom content ;;
  htmlTag ← querySelector (tag "html");
  match htmlTag with
  | Some htmlTag => setAttribute htmlTag "lang" lang
  | None => mret tt
  end ;;
  metaLanguageTag ← querySelector (tag_with "meta" [("name", "language")]);
  metaLanguageTag ←
    match metaLanguageTag with
    | Some m => mret m
    | None =>
        m ← createElement "meta";
        setAttribute m "name" "language" ;;
        head_appendChild m ;;
        mret m
    end;
  setAttribute metaLanguageTag "content" lang ;;
  canonicalLink ← querySelector (tag_with "link" [("rel", "canonical")]);
  canonicalLink ←
    match canonicalLink with
    | Some l => mret l
    | None =>
        l ← createElement "link";
        setAttribute l "rel" "canonical" ;;
        head_appendChild l ;;
        mret l
    end;
  setAttribute canonicalLink "href" (canonicalUrl relativePath lang) ;;
  addAlternates relativePath languages ;;
  titleElement ← querySelector (tag "title");
  match titleElement with
  | Some titleElement =>
      originalTitle ← textContent titleElement;
      translatedTitle ← translateText translate originalTitle lang;
      set_textContent titleElement translatedTitle
  | None => mret tt
  end ;;
  metaDescription ← querySelector (tag_with "meta" [("name", "description")]);
  match metaDescription with
  | Some metaDescription =>
      descriptionContent ← getAttribute metaDescription "content";
      match descriptionContent with
      | Some descriptionContent =>
          if negb (String.eqb descriptionContent "") then
            translatedDescription ←
              translateText translate descriptionContent lang;
            setAttribute metaDescription "content" translatedDescription
          else mret tt
      | None => mret tt
      end
  | None => mret tt
  end ;;
  elements ← querySelectorAll elementsQuery;
  for_of elements (λ element, translateSelected element lang) ;;
  save writable filePath relativePath lang.

(** The loop through the languages that creates the new language
    files where [createnew] is true. *)
Definition createFiles (content : document) (filePath relativePath : string)
    (languages : list LocaleDescriptor) : M unit :=
  for_of languages (λ langObj,
    if negb (createnew langObj)
    then console_log (SkippingCreation (code langObj))
    else
      let lang := code langObj in
      try_catch
        (translateFor content filePath relativePath lang languages)
        (λ err, console_log (ErrorProcessingFile filePath lang err))).

(** [content] is the file as parsed by [new JSDOM(content)]. *)
Definition translateHTML (content : document) (filePath relativePath : string)
    (languages : list LocaleDescriptor) : M unit :=
  set_dom content ;;
  addAlternates relativePath languages ;;
  createFiles content filePath relativePath languages.

End Script.

End Part000.

(** ** What is observed of a document and of a run *)

Fixpoint all_char (c : ascii) (s : string) : bool :=
  match s with
  | "" => true
  | String d s' => Ascii.eqb c d && all_char c s'
  end.


(** [(before, after)] cuts [s] at the first occurrence of [p]: no
    occurrence starts earlier. *)
Definition first_occurrence (s p before after : string) : Prop :=
  s = before +:+ p +:+ after
  ∧ ∀ x y, before = x +:+ y → y ≠ "" → startsWith (y +:+ p +:+ after) p = false.

(** The attributes of an anchor before and after the [href] rewrite for
    [lang]: an [href] with [/en/] has its first occurrence replaced,
    anything else is kept. *)
Definition href_rewritten (lang : string)
    (attrs attrs' : list (string * string)) : Prop :=
  match attr_get "href" attrs with
  | None => attrs' = attrs
  | Some href =>
      (includes href "/en/" = false ∧ attrs' = attrs)
      ∨ ∃ before after,
          first_occurrence href "/en/" before after
          ∧ attrs' = attr_set "href" (before +:+ "/" +:+ lang +:+ "/" +:+ after) attrs
  end.

(** Every text that holds the brand token in another letter case only,
    and is in the cache for a language without a colon, is there as
    itself. *)
Definition variants_kept (st : State) : Prop :=
  ∀ lang text cached,
    includes lang ":" = false →
    includes (toLowerCase text) brand = true →
    includes text brand = false →
    translationCache st !! cacheKey lang text = Some cached →
    cached = text.

(** [m] leaves the element [e] an element with the tag and the attributes
    it has; its children may change. *)
Definition keeps {A} (e : nat) (m : M A) : Prop :=
  ∀ st tag attrs cs,
    nodes (dom st) !! e = Some (Element tag attrs cs) →
    ∃ cs', nodes (dom (m st).1) !! e = Some (Element tag attrs cs').

(** The alternate links of a document, in document order: [hreflang] and
    [href]. *)
Definition alternates (d : document) : list (option string * option string) :=
  flat_map (λ id,
      match nodes d !! id with
      | Some (Element tag attrs _) =>
          if String.eqb tag "link"
             && attr_matches attrs ("rel", "alternate")
          then [(attr_get "hreflang" attrs, attr_get "href" attrs)]
          else []
      | _ => []
      end)
    (elements (S (length (nodes d))) (nodes d) (documentElement d)).

(** The languages whose processing ended, by a file written or by a
    logged error, as the console tells. *)
Definition ended (entry : log_entry) : list (string * bool) :=
  match entry with
  | Translated _ lang => [(lang, true)]
  | ErrorProcessingFile _ lang _ => [(lang, false)]
  | _ => []
  end.



(** ** States and providers used in the examples *)

Module Fixtures.

Definition initial : State := MkState ∅ [] [] [] (Document [] 0).

(** A provider that answers every request, tagging the text with the
    locale. *)
Definition tagging : list (string * string) → string → string → option string :=
  λ _ text lang, Some ("[" +:+ lang +:+ "]" +:+ text).

(** A provider that rejects every request. *)
Definition failing : list (string * string) → string → string → option string :=
  λ _ _ _, None.

(** A page with the title Welcome, a paragraph that starts with the
    copyright sign, and an anchor to [/en/docs/en/x]. *)
Definition page : document :=
  Document
    [ Element "html" [] [1; 4];
      Element "head" [] [2];
      Element "title" [] [3];
      Text "Welcome";
      Element "body" [] [5; 7];
      Element "p" [] [6];
      Text (copyright +:+ " 2024 Acme");
      Element "a" [("href", "/en/docs/en/x")] [8];
      Text "About" ]
    0.

(** [<html><head></head><body></body></html>] *)
Definition blank : document :=
  Document [Element "html" [] [1; 2]; Element "head" [] []; Element "body" [] []] 0.

(** A page whose title and whose anchor text hold the brand token. *)
Definition branded : document :=
  Document
    [ Element "html" [] [1; 4];
      Element "head" [] [2];
      Element "title" [] [3];
      Text "About evaluating.tools";
      Element "body" [] [5];
      Element "a" [("href", "/en/")] [6];
      Text "evaluating.tools home" ]
    0.

(** A provider that rejects the requests for one language. *)
Definition failing_for (lang : string)
  : list (string * string) → string → string → option string :=
  λ _ text to, if String.eqb to lang then None else Some ("[" +:+ to +:+ "]" +:+ text).

Definition always : string → string → string → bool := λ _ _ _, true.

Definition languages : list LocaleDescriptor :=
  [Locale "fr" true; Locale "de" false].

End Fixtures.

(** ** More of what is observed of a run *)

(** The element [e] is an element. *)
Definition is_element_of (st : State) (e : nat) : Prop :=
  ∃ tag attrs cs, nodes (dom st) !! e = Some (Element tag attrs cs).


(** [m] changes nothing but the document. *)
Definition dom_only {A} (m : M A) : Prop :=
  ∀ st, ∃ d, (m st).1 = with_dom st d.

(** One turn of the loop over the languages, as both scripts have it:
    [skip] for a language without [createnew], the guarded [body]
    otherwise. *)
Definition language_turn (filePath : string) (skip : LocaleDescriptor → M unit)
    (body : string → M unit) (langObj : LocaleDescriptor) : M unit :=
  if negb (createnew langObj) then skip langObj
  else
    try_catch (body (code langObj))
      (λ err, console_log (ErrorProcessingFile filePath (code langObj) err)).

(** In the document [d], [e] is an element whose attribute [k] is [v]. *)
Definition doc_attr (d : document) (e : nat) (k v : string) : Prop :=
  ∃ tag attrs cs,
    nodes d !! e = Some (Element tag attrs cs) ∧ attr_get k attrs = Some v.

(** [m] keeps the attribute [k] of the element [e] as it is. *)
Definition keeps_attr {A} (e : nat) (k : string) (m : M A) : Prop :=
  ∀ st v, doc_attr (dom st) e k v → doc_attr (dom (m st).1) e k v.

(** Run on a document where the attribute [k] of [e] is [v], [m] either
    throws or ends by writing a file for [lang] in which it still is. *)
Definition saves_attr {A} (e : nat) (k v lang : string) (m : M A) : Prop :=
  ∀ st,
    doc_attr (dom st) e k v →
    match m st with
    | (st', Ok _) =>
        ∃ f, last (written st') = Some f
             ∧ out_lang f = lang
             ∧ doc_attr (out_document f) e k v
    | (_, Throw _) => True
    end.





(** ** The walk through the input folder

    [processFolder] is the same in both scripts.  A folder is the list of
    its entries as [fs.readdirSync] gives them, read without error; an
    entry is a file with its parsed content, a directory, or something
    else (a link, a socket).  A path is the list of its segments: the
    name of an entry is one segment, so [path.join(p, entry.name)] adds
    it at the end, and a path is written with slashes between its
    segments, [.] for the path without segments, which is also what
    [path.dirname] gives for a single name. *)

Inductive dirent :=
  | File (name : string) (content : document)
  | Directory (name : string) (entries : list dirent)
  | Other (name : string).

Definition render (segments : list string) : string :=
  match segments with
  | [] => "."
  | _ => join "/" segments
  end.

(** [path.dirname(p)] for a path of at least one segment. *)
Definition dirname (segments : list string) : string :=
  render (removelast segments).

Section Walk.

(** [translateHTML] of either script, for the registry at hand: the
    parsed file, its path, the relative path of its folder. *)
Variable translateHTML : document → string → string → M unit.

(** The body of the loop of [processFolder]. *)
Fixpoint processEntry (folderPath relativePath : list string) (entry : dirent)
  : M unit :=
  match entry with
  | Directory name entries =>
      (fix walk (es : list dirent) : M unit :=
         match es with
         | [] => mret tt
         | e :: es' =>
             processEntry (folderPath ++ [name]) (relativePath ++ [name]) e ;;
             walk es'
         end) entries
  | File name content =>
      if endsWith name ".html"
      then translateHTML content (render (folderPath ++ [name]))
             (dirname (relativePath ++ [name]))
      else mret tt
  | Other _ => mret tt
  end.

Definition processFolder (entries : list dirent)
    (folderPath relativePath : list string) : M unit :=
  for_of entries (processEntry folderPath relativePath).

(** The [.html] files below an entry, in the order of the walk, each
    with its path and the relative path of its folder. *)
Fixpoint html_files_of (folderPath relativePath : list string) (entry : dirent)
  : list (document * string * string) :=
  match entry with
  | Directory name entries =>
      (fix walk (es : list dirent) : list (document * string * string) :=
         match es with
         | [] => []
         | e :: es' =>
             html_files_of (folderPath ++ [name]) (relativePath ++ [name]) e
               ++ walk es'
         end) entries
  | File name content =>
      if endsWith name ".html"
      then [(content, render (folderPath ++ [name]),
             dirname (relativePath ++ [name]))]
      else []
  | Other _ => []
  end.

Definition html_files (entries : list dirent)
    (folderPath relativePath : list string)
  : list (document * string * string) :=
  flat_map (html_files_of folderPath relativePath) entries.

(** [translateHTML] on a file of that list. *)
Definition translate_file (f : document * string * string) : M unit :=
  translateHTML f.1.1 f.1.2 f.2.

End Walk.

Definition plain_name (name : string) : Prop :=
  name ≠ "" ∧ endsWith name "/" = false.

(** The names of the entries, all the way down, are not empty and do not
    end in a slash. *)
Fixpoint plain_names (entry : dirent) : Prop :=
  match entry with
  | File name _ | Other name => plain_name name
  | Directory name entries =>
      plain_name name
      ∧ (fix all (es : list dirent) : Prop :=
           match es with
           | [] => True
           | e :: es' => plain_names e ∧ all es'
           end) entries
  end.

(** ** The alternate links of a document *)

(** One turn of the loop that adds the alternate links, as both scripts
    have it, for the language [lang] and the [href] the script gives. *)
Definition alternate_turn (lang href : string) : M unit :=
  existingAltLink ← querySelector (alternateLink lang);
  match existingAltLink with
  | Some _ => mret tt
  | None =>
      linkTag ← createElement "link";
      setAttribute linkTag "rel" "alternate" ;;
      setAttribute linkTag "hreflang" lang ;;
      setAttribute linkTag "href" href ;;
      head_appendChild linkTag
  end.

(** The element [x] is in the document (attached) and is an alternate
    link of the language [lang]. *)
Definition alternate_at (d : document) (lang : string) (x : nat) : Prop :=
  In x (elements (S (length (nodes d))) (nodes d) (documentElement d))
  ∧ ∃ n, nodes d !! x = Some n ∧ matches (alternateLink lang) n = true.

Definition has_alternate (d : document) (lang : string) : Prop :=
  ∃ x, alternate_at d lang x.

(** What the loop asks before it adds a link:
    [document.querySelector] finds an alternate link of [lang]. *)
Definition alternate_found (st : State) (lang : string) : Prop :=
  ∃ x, querySelector (alternateLink lang) st = (st, Ok (Some x)).

(** Every element of [ns] is in [ns'] with its tag, its attributes and
    at least its children. *)
Definition extends (ns ns' : list node) : Prop :=
  ∀ i tag attrs cs,
    ns !! i = Some (Element tag attrs cs) →
    ∃ cs', ns' !! i = Some (Element tag attrs cs') ∧ ∀ c, In c cs → In c cs'.

(** ** Documents and folders used in the examples *)

Module Samples.

(** A page whose [meta name=description] has no [content]. *)
Definition described : document :=
  Document
    [ Element "html" [] [1; 3];
      Element "head" [] [2];
      Element "meta" [("name", "description")] [];
      Element "body" [] [] ]
    0.


(** A document without a [head]. *)
Definition headless : document :=
  Document [Element "html" [] [1]; Element "body" [] []] 0.

(** An input folder: a page, a folder with a page and a text file, and
    an entry that is neither a file nor a folder. *)
Definition site : list dirent :=
  [ File "index.html" Fixtures.blank;
    Directory "docs" [File "guide.html" Fixtures.page;
                      File "notes.txt" Fixtures.blank];
    Other "socket" ].

End Samples.

(** ** Facts about the string operations *)

Section StringFacts.

Lemma app_nil_l (s : string) : "" +:+ s = s.
Proof. reflexivity. Qed.

Lemma app_cons (c : ascii) (s t : string) :
  String c s +:+ t = String c (s +:+ t).
Proof. reflexivity. Qed.

Lemma app_nil_end (s : string) : s +:+ "" = s.
Proof.
  induction s as [|c s IH]; [done |]. by rewrite app_cons, IH.
Qed.

Lemma app_assoc_s (a b c : string) : (a +:+ b) +:+ c = a +:+ b +:+ c.
Proof.
  induction a as [|x a IH]; [done |]. by rewrite !app_cons, IH.
Qed.

Lemma strip_prefix_Some (p s r : string) :
  strip_prefix p s = Some r ↔ s = p +:+ r.
Proof.
  revert s. induction p as [|a p IH]; intros s; cbn.
  - split; [by intros [= ->] | by intros ->].
  - destruct s as [|b s]; [split; intros; discriminate |].
    destruct (Ascii.eqb_spec a b) as [->|Hne].
    + rewrite IH, app_cons. split; [by intros -> | by intros [= ->]].
    + rewrite app_cons. split; [discriminate | intros [= -> _]; by destruct Hne].
Qed.

Lemma cut_Some (s p before after : string) :
  cut s p = Some (before, after) → s = before +:+ p +:+ after.
Proof.
  revert before. induction s as [|c s IH]; intros before; cbn [cut].
  - destruct (strip_prefix p "") as [r|] eqn:E; [|discriminate].
    intros [= <- <-]. by apply strip_prefix_Some in E.
  - destruct (strip_prefix p (String c s)) as [r|] eqn:E.
    + intros [= <- <-]. by apply strip_prefix_Some in E.
    + destruct (cut s p) as [[b a]|] eqn:E'; [|discriminate].
      intros [= <- <-]. rewrite app_cons. f_equal. by apply IH.
Qed.

Lemma includes_false_inv (c : ascii) (s p : string) :
  includes (String c s) p = false →
  startsWith (String c s) p = false ∧ includes s p = false.
Proof.
  unfold includes, startsWith. cbn [cut].
  destruct (strip_prefix p (String c s)); [discriminate |].
  by destruct (cut s p) as [[??]|].
Qed.

Lemma split_go_not_nil (sep s : string) (k : nat) (cur : string) :
  split_go sep s k cur ≠ [].
Proof.
  revert k cur. induction s as [|c s IH]; intros k cur; cbn; [done |].
  destruct k; [|apply IH].
  destruct (startsWith _ _); [done | apply IH].
Qed.

Lemma join_cons (sep x : string) (l : list string) :
  l ≠ [] → join sep (x :: l) = x +:+ sep +:+ join sep l.
Proof. by destruct l. Qed.




Lemma split_not_nil (s sep : string) : sep ≠ "" → split s sep ≠ [].
Proof.
  intros Hsep. unfold split. destruct sep; [done | apply split_go_not_nil].
Qed.

(** A text without the separator is its own single piece. *)
Lemma split_go_absent (sep s cur : string) :
  includes s sep = false → split_go sep s 0 cur = [cur +:+ s].
Proof.
  revert cur. induction s as [|c s IH]; intros cur H; cbn [split_go].
  - by rewrite app_nil_end.
  - apply includes_false_inv in H as [-> H].
    rewrite IH by done. by rewrite app_assoc_s.
Qed.

Lemma split_absent (s sep : string) :
  sep ≠ "" → includes s sep = false → split s sep = [s].
Proof.
  intros Hsep H. unfold split. destruct sep; [done |].
  by rewrite split_go_absent.
Qed.







Lemma brand_not_empty : brand ≠ "".
Proof. discriminate. Qed.

End StringFacts.

(** ** The translation cache and the provider adapter *)

Section TranslateText.

Variable translate : list (string * string) → string → string → option string.


Lemma with_requests_id (st : State) : with_requests st (requests st) = st.
Proof. by destruct st. Qed.

(** The promises built by [parts.map]: a request for every piece but the
    last, the last piece as it is. *)
Lemma parts_promises (lang : string) (segs : list string) (lst : string) :
  imap (λ index part,
          if (index =? length (segs ++ [lst]) - 1)%nat
          then mret part
          else request translate (trim part) lang) (segs ++ [lst])
  = ((λ part, request translate (trim part) lang) <$> segs) ++ [mret lst].
Proof.
  rewrite imap_app, length_app. cbn [length imap].
  replace (length segs + 1 - 1) with (length segs) by lia.
  rewrite Nat.add_0_r, Nat.eqb_refl. f_equal.
  rewrite <- (imap_const (λ part, request translate (trim part) lang) segs).
  apply imap_ext. intros i x Hi. apply lookup_lt_Some in Hi.
  cbn. destruct (Nat.eqb_spec i (length segs)); [lia | done].
Qed.

(** All the requests are issued, whatever their answers. *)
Lemma promise_all_state (lang : string) (segs : list string) (lst : string)
    (st : State) :
  (promise_all (((λ part, request translate (trim part) lang) <$> segs) ++ [mret lst]) st).1
  = with_requests st (requests st ++ ((λ p, (trim p, lang)) <$> segs)).
Proof.
  revert st. induction segs as [|s segs IH]; intros st.
  - cbn. by rewrite app_nil_r, with_requests_id.
  - cbn [fmap list_fmap app promise_all]. unfold request at 1.
    specialize (IH (with_requests st (requests st ++ [(trim s, lang)]))).
    destruct (promise_all _ _) as [st2 rs]. cbn [fst] in *. subst st2.
    cbn [requests with_requests]. by rewrite <- app_assoc.
Qed.


(** When a request fails, the promise is rejected. *)
Lemma promise_all_rejected (lang : string) (segs : list string)
    (lst : string) (st : State) :
  None ∈ answers translate (requests st) lang segs →
  ∃ text,
    (promise_all (((λ part, request translate (trim part) lang) <$> segs) ++ [mret lst]) st).2
    = Throw (ProviderFailure text lang).
Proof.
  revert st. induction segs as [|s segs IH]; intros st H.
  - by apply elem_of_nil in H.
  - cbn [answers] in H.
    cbn [fmap list_fmap app promise_all]. unfold request at 1.
    destruct (translate (requests st) (trim s) lang) as [t|] eqn:Ht.
    + apply elem_of_cons in H as [H|H]; [discriminate |].
      specialize (IH (with_requests st (requests st ++ [(trim s, lang)])) H).
      destruct (promise_all _ _) as [st2 rs]. cbn [snd] in IH.
      destruct IH as [text ->]. by exists text.
    + destruct (promise_all _ _) as [st2 rs]. by exists (trim s).
Qed.


Lemma split_last (text : string) :
  split text brand = removelast (split text brand) ++ [List.last (split text brand) ""].
Proof. apply app_removelast_last, split_not_nil, brand_not_empty. Qed.

(** A cache hit returns the entry and touches nothing. *)
Lemma translateText_hit (st : State) (text lang cached : string) :
  translationCache st !! cacheKey lang text = Some cached →
  translateText translate text lang st = (st, Ok cached).
Proof.
  intros H. unfold translateText, mbind, M_bind, get_state.
  by rewrite H.
Qed.

(** A miss on a text with the brand token: the split path. *)
Lemma translateText_miss_brand (st : State) (text lang : string) :
  translationCache st !! cacheKey lang text = None →
  includes (toLowerCase text) brand = true →
  translateText translate text lang st
  = let segs := removelast (split text brand) in
    let lst := List.last (split text brand) "" in
    let st1 := with_requests st (requests st ++ ((λ p, (trim p, lang)) <$> segs)) in
    match (promise_all (((λ part, request translate (trim part) lang) <$> segs)
                          ++ [mret lst]) st).2 with
    | Ok translatedParts =>
        (with_cache st1 (<[cacheKey lang text := join brand translatedParts]>
                           (translationCache st)),
         Ok (join brand translatedParts))
    | Throw e => (st1, Throw e)
    end.
Proof.
  intros Hmiss Hbrand.
  unfold translateText, mbind, M_bind, get_state.
  rewrite Hmiss, Hbrand. cbv zeta.
  set (segs := removelast (split text brand)).
  set (lst := List.last (split text brand) "").
  assert (split text brand = segs ++ [lst]) as -> by apply split_last.
  rewrite parts_promises.
  pose proof (promise_all_state lang segs lst st) as Hst.
  destruct (promise_all _ st) as [st1 [l|e]]; cbn [fst snd] in *; by subst st1.
Qed.

(** A miss on a text without the brand token: one request for the
    trimmed text, guarded by [try]/[catch]. *)
Lemma translateText_miss_plain (st : State) (text lang : string) :
  translationCache st !! cacheKey lang text = None →
  includes (toLowerCase text) brand = false →
  translateText translate text lang st
  = let st1 := with_requests st (requests st ++ [(trim text, lang)]) in
    match translate (requests st) (trim text) lang with
    | Some result =>
        (with_cache st1 (<[cacheKey lang text := result]> (translationCache st)),
         Ok result)
    | None =>
        (with_console st1
           (console st ++ [ErrorTranslatingText text lang
                             (ProviderFailure (trim text) lang)]),
         Ok text)
    end.
Proof.
  intros Hmiss Hbrand.
  unfold translateText, mbind, M_bind, get_state.
  rewrite Hmiss, Hbrand.
  unfold try_catch, request, cache_set, console_log, mret, M_ret.
  by destruct (translate _ _ _).
Qed.


Lemma with_cache_id (st : State) : with_cache st (translationCache st) = st.
Proof. by destruct st. Qed.

(** C10.  A text that holds the brand token only in another letter case
    is returned as it is: no request is sent, and the text itself is
    stored under its key.  This is so when the key is free, or holds the
    text already, which is the case in every state reached from an empty
    cache by calls for languages without a colon
    ([variants_kept_translateText]). *)
Theorem translateText_case_variant (st : State) (text lang : string) :
  includes (toLowerCase text) brand = true →
  includes text brand = false →
  (∀ cached, translationCache st !! cacheKey lang text = Some cached →
             cached = text) →
  translateText translate text lang st
  = (with_cache st (<[cacheKey lang text := text]> (translationCache st)),
     Ok text).
Proof.
  intros Hci Hlit Hkey.
  destruct (translationCache st !! cacheKey lang text) as [cached|] eqn:Hc.
  { rewrite (Hkey cached eq_refl) in Hc.
    rewrite (translateText_hit _ _ _ _ Hc).
    by rewrite insert_id, with_cache_id. }
  rewrite translateText_miss_brand by done. cbv zeta.
  rewrite (split_absent text brand brand_not_empty Hlit).
  cbn [removelast List.last fmap list_fmap app promise_all].
  unfold mret, M_ret. cbn [snd join].
  by rewrite app_nil_r, with_requests_id.
Qed.

Lemma includes_colon_cons (c : ascii) (s : string) :
  includes (String c s) ":" = false → c ≠ ":"%char ∧ includes s ":" = false.
Proof.
  unfold includes. cbn [cut strip_prefix].
  destruct (Ascii.eqb_spec ":" c) as [<-|Hc]; [done |].
  destruct (cut s ":") as [[??]|]; [done |]. by split; [intros -> |].
Qed.

(** The key tells the language and the text apart when the languages
    hold no colon. *)
Lemma cacheKey_inj_pair (lang1 lang2 text1 text2 : string) :
  includes lang1 ":" = false → includes lang2 ":" = false →
  cacheKey lang1 text1 = cacheKey lang2 text2 →
  lang1 = lang2 ∧ text1 = text2.
Proof.
  unfold cacheKey. revert lang2.
  induction lang1 as [|c lang1 IH]; intros [|d lang2] H1 H2 H.
  - rewrite !app_nil_l in H. by injection H.
  - rewrite app_nil_l, !app_cons in H. injection H as <- _.
    by apply includes_colon_cons in H2 as [? _].
  - rewrite app_nil_l, !app_cons in H. injection H as -> _.
    by apply includes_colon_cons in H1 as [? _].
  - rewrite !app_cons in H. injection H as -> H.
    apply includes_colon_cons in H1 as [_ H1].
    apply includes_colon_cons in H2 as [_ H2].
    by destruct (IH lang2 H1 H2 H) as [-> ->].
Qed.

Lemma variants_kept_empty (st : State) :
  translationCache st = ∅ → variants_kept st.
Proof. intros E lang text cached _ _ _. by rewrite E, lookup_empty. Qed.

(** [translateText] for a language without a colon keeps the cache as
    [variants_kept] says. *)
Lemma variants_kept_translateText (st : State) (text lang : string) :
  includes lang ":" = false →
  variants_kept st →
  variants_kept (translateText translate text lang st).1.
Proof.
  intros Hlang Hst.
  destruct (translationCache st !! cacheKey lang text) as [cached|] eqn:Hc.
  { by rewrite (translateText_hit _ _ _ _ Hc). }
  destruct (includes (toLowerCase text) brand) eqn:Hb.
  - rewrite translateText_miss_brand by done. cbv zeta.
    destruct (includes text brand) eqn:Hlit.
    + destruct (promise_all _ st).2 as [l|e]; cbn [fst]; [|exact Hst].
      intros lang' text' cached' Hl' Hci' Hlit' Hlook. cbn in Hlook.
      destruct (decide (cacheKey lang text = cacheKey lang' text')) as [E|Hne].
      * apply cacheKey_inj_pair in E as [-> ->]; [congruence | done..].
      * rewrite lookup_insert_ne in Hlook by done. by apply (Hst lang' text').
    + rewrite (split_absent text brand brand_not_empty Hlit).
      cbn [removelast List.last fmap list_fmap app promise_all].
      unfold mret, M_ret. cbn [snd join fst].
      intros lang' text' cached' Hl' Hci' Hlit' Hlook. cbn in Hlook.
      destruct (decide (cacheKey lang text = cacheKey lang' text')) as [E|Hne].
      * rewrite E, lookup_insert_eq in Hlook. injection Hlook as <-.
        by apply cacheKey_inj_pair in E as [_ ->].
      * rewrite lookup_insert_ne in Hlook by done. by apply (Hst lang' text').
  - rewrite translateText_miss_plain by done. cbv zeta.
    destruct (translate _ _ _) as [result|]; cbn [fst]; [|exact Hst].
    intros lang' text' cached' Hl' Hci' Hlit' Hlook. cbn in Hlook.
    destruct (decide (cacheKey lang text = cacheKey lang' text')) as [E|Hne].
    + apply cacheKey_inj_pair in E as [-> ->]; [congruence | done..].
    + rewrite lookup_insert_ne in Hlook by done. by apply (Hst lang' text').
Qed.



(** What the failure policy gives on the guarded path: the text comes
    back, the error is logged, nothing is stored. *)
Lemma translateText_plain_failure (st : State) (text lang : string) :
  translationCache st !! cacheKey lang text = None →
  includes (toLowerCase text) brand = false →
  translate (requests st) (trim text) lang = None →
  ∃ st', translateText translate text lang st = (st', Ok text)
         ∧ translationCache st' = translationCache st
         ∧ console st' = console st ++ [ErrorTranslatingText text lang
                                          (ProviderFailure (trim text) lang)].
Proof.
  intros Hmiss Hplain Hans.
  rewrite translateText_miss_plain by done. cbv zeta. rewrite Hans.
  by eexists.
Qed.

(** On the split path a failed request rejects the call. *)
Lemma translateText_brand_failure (st : State) (text lang : string) :
  translationCache st !! cacheKey lang text = None →
  includes (toLowerCase text) brand = true →
  None ∈ answers translate (requests st) lang (removelast (split text brand)) →
  ∃ st' failed, translateText translate text lang st
                = (st', Throw (ProviderFailure failed lang))
                ∧ translationCache st' = translationCache st
                ∧ console st' = console st.
Proof.
  intros Hmiss Hbrand Hans.
  rewrite translateText_miss_brand by done. cbv zeta.
  destruct (promise_all_rejected lang _ (List.last (split text brand) "") st Hans)
    as [failed ->].
  by eexists _, failed.
Qed.

(** C9, as the code has it.  When the first call returns and logs no
    provider failure, the second call with the same arguments is a hit:
    the same string, the state untouched, no request.  The first call
    sends at most one request for a text without the brand token, and
    at most one per piece but the last otherwise. *)
Theorem translateText_second_call_hit (st st1 : State) (text lang v : string) :
  translateText translate text lang st = (st1, Ok v) →
  console st1 = console st →
  translateText translate text lang st1 = (st1, Ok v)
  ∧ length (requests st1)
    ≤ length (requests st)
      + (if includes (toLowerCase text) brand
         then length (split text brand) - 1 else 1).
Proof.
  intros Hfirst Hquiet.
  destruct (translationCache st !! cacheKey lang text) as [cached|] eqn:Hc.
  { rewrite (translateText_hit st text lang cached Hc) in Hfirst.
    injection Hfirst as <- <-. split; [by apply translateText_hit | lia]. }
  destruct (includes (toLowerCase text) brand) eqn:Hb.
  - rewrite translateText_miss_brand in Hfirst by done. cbv zeta in Hfirst.
    destruct (promise_all _ st).2 as [l|e]; [|discriminate].
    injection Hfirst as <- <-. split.
    + apply translateText_hit. cbn. apply lookup_insert_eq.
    + cbn. rewrite length_app, length_fmap.
      rewrite (split_last text) at 2.
      rewrite length_app. cbn. lia.
  - rewrite translateText_miss_plain in Hfirst by done. cbv zeta in Hfirst.
    destruct (translate _ _ _) as [result|].
    + injection Hfirst as <- <-. split.
      * apply translateText_hit. cbn. apply lookup_insert_eq.
      * cbn. rewrite length_app. cbn. lia.
    + injection Hfirst as <- <-. cbn in Hquiet.
      apply (f_equal length) in Hquiet. rewrite length_app in Hquiet.
      cbn in Hquiet. lia.
Qed.

End TranslateText.

Section TranslateTextExamples.

Import Fixtures.


Lemma translateText_case_variant_witness :
  translateText tagging "Visit Evaluating.Tools today" "fr" initial
  = (MkState {[ "fr:Visit Evaluating.Tools today" := "Visit Evaluating.Tools today" ]}
             [] [] [] (Document [] 0),
     Ok "Visit Evaluating.Tools today").
Proof.
  apply (translateText_case_variant tagging initial
           "Visit Evaluating.Tools today" "fr");
    [reflexivity | reflexivity | intros cached H; discriminate H].
Defined.



Lemma translateText_second_call_hit_witness :
  translateText tagging "Hello" "fr"
    (translateText tagging "Hello" "fr" initial).1
  = ((translateText tagging "Hello" "fr" initial).1, Ok "[fr]Hello")
  ∧ length (requests (translateText tagging "Hello" "fr" initial).1) ≤ 0 + 1.
Proof.
  apply (translateText_second_call_hit tagging initial
           (translateText tagging "Hello" "fr" initial).1 "Hello" "fr"
           "[fr]Hello");
    vm_compute; reflexivity.
Defined.

(** C9 fails as stated: when the provider rejects the request, nothing
    is stored and the second call asks again; and one call on a text
    with the token twice sends two requests. *)
Lemma repeated_call_counterexample :
  let st1 := (translateText failing "Hello" "fr" initial).1 in
  let st2 := (translateText failing "Hello" "fr" st1).1 in
  translationCache st1 !! cacheKey "fr" "Hello" = None
  ∧ requests st2 = [("Hello", "fr"); ("Hello", "fr")]
  ∧ requests (translateText tagging
                "Use evaluating.tools, love evaluating.tools" "fr" initial).1
    = [("Use", "fr"); (", love", "fr")].
Proof. vm_compute. done. Qed.

(** C4 at the failing input: on the split path a rejected request
    rejects [translateText]; nothing is logged, nothing is stored. *)
Lemma translateText_brand_rejects :
  translateText failing "Visit evaluating.tools today" "fr" initial
  = (MkState ∅ [("Visit", "fr")] [] [] (Document [] 0),
     Throw (ProviderFailure "Visit" "fr")).
Proof. vm_compute. done. Qed.

End TranslateTextExamples.

(** ** Canonical URLs *)

Section CanonicalUrl.

Lemma endsWith_cons (c : ascii) (s p : string) :
  endsWith (String c s) p = String.eqb (String c s) p || endsWith s p.
Proof. reflexivity. Qed.

Lemma endsWith_app (a p : string) : endsWith (a +:+ p) p = true.
Proof.
  induction a as [|c a IH].
  - rewrite app_nil_l. destruct p; cbn [endsWith]; by rewrite String.eqb_refl.
  - rewrite app_cons, endsWith_cons, IH. apply orb_true_r.
Qed.

Lemma strip_trailing_slashes_spec (s : string) :
  ∃ slashes,
    s = strip_trailing_slashes s +:+ slashes
    ∧ all_char "/" slashes = true
    ∧ endsWith (strip_trailing_slashes s) "/" = false.
Proof.
  induction s as [|c s (slashes & Hs & Hall & Hend)].
  - by exists "".
  - cbn [strip_trailing_slashes].
    destruct (strip_trailing_slashes s) as [|d r] eqn:E.
    + destruct (Ascii.eqb_spec c "/") as [->|Hc].
      * exists (String "/" slashes). rewrite app_nil_l in *.
        split; [by rewrite <- Hs |]. split; [|done]. cbn. by rewrite Hall.
      * exists slashes. rewrite app_nil_l in Hs. rewrite !app_cons, app_nil_l.
        split; [by rewrite <- Hs |]. split; [done |].
        cbn. destruct (Ascii.eqb_spec c "/"); [done |].
        by rewrite orb_false_r.
    + exists slashes. rewrite app_cons. split; [by rewrite <- Hs |].
      split; [done |]. rewrite endsWith_cons, Hend, orb_false_r.
      destruct (String.eqb_spec (String c (String d r)) "/") as [H|H];
        [discriminate | done].
Qed.

Lemma strip_leading_dots_spec (s : string) :
  ∃ dots,
    s = dots +:+ strip_leading_dots s
    ∧ all_char "." dots = true
    ∧ startsWith (strip_leading_dots s) "." = false.
Proof.
  induction s as [|c s (dots & Hs & Hall & Hstart)].
  - by exists "".
  - cbn [strip_leading_dots]. destruct (Ascii.eqb_spec c ".") as [->|Hc].
    + exists (String "." dots). rewrite app_cons, <- Hs.
      split; [done |]. split; [|done]. cbn. by rewrite Hall.
    + exists "". split; [done |]. split; [done |].
      unfold startsWith. cbn [strip_prefix].
      destruct (Ascii.eqb_spec "." c) as [E|_]; [by destruct Hc | done].
Qed.

Lemma endsWith_strip_leading_dots (s : string) :
  endsWith s "/" = false → endsWith (strip_leading_dots s) "/" = false.
Proof.
  induction s as [|c s IH]; [done |].
  cbn [strip_leading_dots]. destruct (Ascii.eqb c "."); [|done].
  rewrite endsWith_cons. intros H. apply orb_false_iff in H as [_ H]. by apply IH.
Qed.

(** In the sibling script the path is cut down to what stands between
    its leading dots and its trailing slashes. *)
Lemma cleanRelativePath_spec (relativePath : string) :
  ∃ dots slashes,
    relativePath = dots +:+ Part000.cleanRelativePath relativePath +:+ slashes
    ∧ all_char "." dots = true
    ∧ all_char "/" slashes = true
    ∧ startsWith (Part000.cleanRelativePath relativePath) "." = false
    ∧ endsWith (Part000.cleanRelativePath relativePath) "/" = false.
Proof.
  unfold Part000.cleanRelativePath.
  destruct (strip_trailing_slashes_spec relativePath) as (slashes & H1 & H2 & H3).
  destruct (strip_leading_dots_spec (strip_trailing_slashes relativePath))
    as (dots & H4 & H5 & H6).
  exists dots, slashes. split; [|auto using endsWith_strip_leading_dots].
  rewrite <- app_assoc_s, <- H4. done.
Qed.

Lemma canonicalUrl_spec (relativePath lang : string) :
  Part000.canonicalUrl relativePath lang
  = "https://evaluating.tools/" +:+ lang +:+ "/"
      +:+ (if String.eqb (Part000.cleanRelativePath relativePath) "" then ""
           else Part000.cleanRelativePath relativePath +:+ "/").
Proof.
  unfold Part000.canonicalUrl.
  destruct (cleanRelativePath_spec relativePath) as (_ & _ & _ & _ & _ & H & _).
  destruct (String.eqb_spec (Part000.cleanRelativePath relativePath) ".") as [E|_].
  { rewrite E in H. discriminate. }
  destruct (String.eqb _ ""); cbn [orb]; [|done].
  by rewrite !app_nil_end.
Qed.

(** C5, as the code has it.  In the sibling script the URL is the
    domain, the language and, between slashes, the path without its
    leading dots and trailing slashes; nothing follows the language for
    an empty path.  [constructCanonicalUrl] turns backslashes into
    slashes and drops the trailing slashes only; it adds no slash after
    a path that ends in [.html].  Both give the bare language URL for
    the root and [.../a/b/] for [a/b]. *)
Theorem canonical_url_construction (relativePath lang : string) :
  let base := "https://evaluating.tools/" +:+ lang +:+ "/" in
  let clean := Part000.cleanRelativePath relativePath in
  let cleanPath := strip_trailing_slashes (backslashes_to_slashes relativePath) in
  Part000.canonicalUrl relativePath lang
    = base +:+ (if String.eqb clean "" then "" else clean +:+ "/")
  ∧ (∃ dots slashes,
       relativePath = dots +:+ clean +:+ slashes
       ∧ all_char "." dots = true ∧ all_char "/" slashes = true
       ∧ startsWith clean "." = false ∧ endsWith clean "/" = false)
  ∧ IndexJs.constructCanonicalUrl relativePath lang
    = base +:+ (if String.eqb cleanPath "." || String.eqb cleanPath "" then ""
                else if endsWith cleanPath ".html" then cleanPath
                else cleanPath +:+ "/")
  ∧ (∃ slashes,
       backslashes_to_slashes relativePath = cleanPath +:+ slashes
       ∧ all_char "/" slashes = true ∧ endsWith cleanPath "/" = false)
  ∧ Part000.canonicalUrl "." lang = base
  ∧ Part000.canonicalUrl "" lang = base
  ∧ IndexJs.constructCanonicalUrl "." lang = base
  ∧ IndexJs.constructCanonicalUrl "" lang = base
  ∧ Part000.canonicalUrl "a/b" lang = base +:+ "a/b/"
  ∧ IndexJs.constructCanonicalUrl "a/b" lang = base +:+ "a/b/".
Proof.
  intros base clean cleanPath.
  split; [subst base; rewrite !app_assoc_s; apply canonicalUrl_spec |].
  split; [apply cleanRelativePath_spec |].
  split.
  { unfold IndexJs.constructCanonicalUrl. fold cleanPath. subst base.
    rewrite !app_assoc_s.
    destruct (String.eqb cleanPath "." || String.eqb cleanPath ""); [done |].
    by destruct (endsWith cleanPath ".html"). }
  split; [apply strip_trailing_slashes_spec |].
  subst base. unfold Part000.canonicalUrl, IndexJs.constructCanonicalUrl.
  cbn -[String.append]. by rewrite !app_assoc_s, !app_nil_end.
Qed.

(** C5 fails as stated: after a path that ends in [.html] no slash is
    added by [constructCanonicalUrl], which also keeps a leading dot
    segment; the sibling script drops the dot and keeps the slash. *)
Lemma canonical_url_counterexample :
  IndexJs.constructCanonicalUrl "docs/page.html" "fr"
    = "https://evaluating.tools/fr/docs/page.html"
  ∧ (∀ cleaned,
       IndexJs.constructCanonicalUrl "docs/page.html" "fr"
       ≠ "https://evaluating.tools/" +:+ "fr" +:+ "/" +:+ cleaned +:+ "/")
  ∧ IndexJs.constructCanonicalUrl "./docs" "fr"
    = "https://evaluating.tools/fr/./docs/"
  ∧ Part000.canonicalUrl "./docs" "fr" = "https://evaluating.tools/fr//docs/".
Proof.
  split; [done |]. split; [|done].
  intros cleaned H. apply (f_equal (λ s, endsWith s "/")) in H.
  rewrite <- !app_assoc_s, endsWith_app in H. vm_compute in H. discriminate.
Qed.

End CanonicalUrl.

(** ** The DOM operations and the elements they leave alone *)

Section Frame.

Variable translate : list (string * string) → string → string → option string.

Lemma translateText_dom (text lang : string) (st : State) :
  dom (translateText translate text lang st).1 = dom st.
Proof.
  destruct (translationCache st !! cacheKey lang text) as [cached|] eqn:Hc.
  { by rewrite (translateText_hit _ _ _ _ _ Hc). }
  destruct (includes (toLowerCase text) brand) eqn:Hb.
  - rewrite translateText_miss_brand by done. cbv zeta.
    by destruct (promise_all _ st).2.
  - rewrite translateText_miss_plain by done. cbv zeta.
    by destruct (translate _ _ _).
Qed.

Lemma keeps_dom {A} (e : nat) (m : M A) :
  (∀ st, dom (m st).1 = dom st) → keeps e m.
Proof. intros H st tag attrs cs He. rewrite H. eauto. Qed.

Lemma keeps_bind {A B} (e : nat) (m : M A) (f : A → M B) :
  keeps e m → (∀ a, keeps e (f a)) → keeps e (m ≫= f).
Proof.
  intros Hm Hf st tag attrs cs He.
  destruct (Hm st tag attrs cs He) as [cs1 H1].
  unfold mbind, M_bind. destruct (m st) as [st1 [a|err]]; cbn [fst] in *.
  - by apply (Hf a st1 tag attrs cs1).
  - eauto.
Qed.

Lemma keeps_ret {A} (e : nat) (a : A) : keeps e (mret a).
Proof. by apply keeps_dom. Qed.

Lemma keeps_try_catch {A} (e : nat) (m : M A) (h : exn → M A) :
  keeps e m → (∀ err, keeps e (h err)) → keeps e (try_catch m h).
Proof.
  intros Hm Hh st tag attrs cs He.
  destruct (Hm st tag attrs cs He) as [cs1 H1].
  unfold try_catch. destruct (m st) as [st1 [a|err]]; cbn [fst] in *.
  - eauto.
  - by apply (Hh err st1 tag attrs cs1).
Qed.

Lemma keeps_for_of {A} (e : nat) (xs : list A) (body : A → M unit) :
  (∀ x, keeps e (body x)) → keeps e (for_of xs body).
Proof.
  intros Hbody. induction xs as [|x xs IH]; cbn [for_of].
  - apply keeps_ret.
  - apply keeps_bind; [apply Hbody | by intros _].
Qed.

Lemma keeps_get_state (e : nat) : keeps e get_state.
Proof. by apply keeps_dom. Qed.

Lemma keeps_console_log (e : nat) (entry : log_entry) :
  keeps e (console_log entry).
Proof. by apply keeps_dom. Qed.

Lemma keeps_translateText (e : nat) (text lang : string) :
  keeps e (translateText translate text lang).
Proof. apply keeps_dom. intros st. apply translateText_dom. Qed.

Lemma keeps_node_at (e x : nat) : keeps e (node_at x).
Proof.
  apply keeps_dom. intros st. unfold node_at. by destruct (_ !! x).
Qed.

(** Writing a node keeps the element [e] when the node written at [e]
    has the tag and the attributes [e] had. *)
Lemma update_node_lookup (x e : nat) (n : node) (st : State)
    (tag : string) (attrs : list (string * string)) (cs : list nat) :
  nodes (dom st) !! e = Some (Element tag attrs cs) →
  (x = e → ∃ cs', n = Element tag attrs cs') →
  ∃ cs', nodes (dom (update_node x n st).1) !! e = Some (Element tag attrs cs').
Proof.
  intros He Hx. cbn.
  destruct (decide (x = e)) as [->|Hne].
  - destruct (Hx eq_refl) as [cs' ->]. exists cs'.
    apply list_lookup_insert_eq. by apply lookup_lt_Some in He.
  - exists cs. by rewrite list_lookup_insert_ne.
Qed.

Lemma keeps_set_textContent (e x : nat) (value : string) :
  keeps e (set_textContent x value).
Proof.
  intros st tag attrs cs He.
  unfold set_textContent, mbind, M_bind, node_at.
  destruct (nodes (dom st) !! x) as [[v|v|tag' attrs' cs']|] eqn:Hx;
    [| | |by eauto].
  - eapply update_node_lookup; [done | intros ->; congruence].
  - eapply update_node_lookup; [done | intros ->; congruence].
  - destruct (String.eqb value "").
    + eapply update_node_lookup; [done |].
      intros ->. rewrite He in Hx. injection Hx as <- <- <-. eauto.
    + cbn [alloc]. eapply update_node_lookup.
      * cbn. by apply lookup_app_l_Some.
      * intros ->. rewrite He in Hx. injection Hx as <- <- <-. eauto.
Qed.

Lemma keeps_set_nodeValue (e x : nat) (value : string) :
  keeps e (set_nodeValue x value).
Proof.
  intros st tag attrs cs He.
  unfold set_nodeValue, mbind, M_bind, node_at.
  destruct (nodes (dom st) !! x) as [[v|v|tag' attrs' cs']|] eqn:Hx;
    [| | by eauto | by eauto].
  - eapply update_node_lookup; [done | intros ->; congruence].
  - eapply update_node_lookup; [done | intros ->; congruence].
Qed.

Lemma keeps_textContent (e x : nat) : keeps e (textContent x).
Proof.
  apply keeps_dom. intros st.
  unfold textContent, mbind, M_bind, node_at, get_state.
  by destruct (nodes (dom st) !! x) as [[v|v|tag' attrs' cs']|].
Qed.

Lemma keeps_childNodes (e x : nat) : keeps e (childNodes x).
Proof.
  apply keeps_dom. intros st.
  unfold childNodes, mbind, M_bind, node_at.
  by destruct (nodes (dom st) !! x) as [[v|v|tag' attrs' cs']|].
Qed.

Lemma keeps_translateElementText_index (e x : nat) (lang : string) :
  keeps e (IndexJs.translateElementText translate x lang).
Proof.
  apply keeps_bind; [apply keeps_textContent | intros tc].
  destruct (_ || _); [apply keeps_ret |].
  apply keeps_try_catch.
  - apply keeps_bind; [apply keeps_childNodes | intros cn].
    destruct (0 <? length cn)%nat.
    + apply keeps_for_of. intros child.
      apply keeps_bind; [apply keeps_node_at | intros [v|v|tag' attrs' cs']];
        try apply keeps_ret.
      apply keeps_bind; [apply keeps_translateText | intros tr].
      apply keeps_set_nodeValue.
    + apply keeps_bind; [apply keeps_textContent | intros tc'].
      apply keeps_bind; [apply keeps_translateText | intros tr].
      apply keeps_set_textContent.
  - intros err. apply keeps_bind; [apply keeps_textContent | intros tc'].
    apply keeps_console_log.
Qed.

Lemma keeps_translateElementText_sibling (e x : nat) (lang : string) :
  keeps e (Part000.translateElementText translate x lang).
Proof.
  apply keeps_bind; [apply keeps_textContent | intros tc]. cbv zeta.
  destruct (String.eqb _ _); [apply keeps_ret |].
  destruct (_ || _); [apply keeps_ret |].
  apply keeps_bind; [apply keeps_translateText | intros tr].
  apply keeps_set_textContent.
Qed.

End Frame.

(** ** The anchor policy: the rewrite of [href] *)

Section AnchorHref.

Variable translate : list (string * string) → string → string → option string.

Lemma cut_first (s p before after : string) :
  cut s p = Some (before, after) → first_occurrence s p before after.
Proof.
  intros H. split; [by apply cut_Some |].
  revert before H. induction s as [|c s IH]; intros before; cbn [cut].
  - destruct (strip_prefix p ""); [|discriminate].
    intros [= <- <-] x y Hxy Hy. destruct x, y; done.
  - destruct (strip_prefix p (String c s)) as [r|] eqn:E.
    { intros [= <- <-] x y Hxy Hy. destruct x, y; done. }
    destruct (cut s p) as [[b a]|] eqn:E'; [|discriminate].
    intros [= <- <-] x y Hxy Hy.
    destruct x as [|d x].
    + rewrite app_nil_l in Hxy. subst y. rewrite app_cons.
      apply cut_Some in E'. rewrite <- E'. unfold startsWith. by rewrite E.
    + rewrite app_cons in Hxy. injection Hxy as _ Hb.
      by apply (IH b eq_refl x y).
Qed.

Lemma includes_char_cons (c d : ascii) (s : string) :
  includes (String d s) (String c "") = Ascii.eqb c d || includes s (String c "").
Proof.
  unfold includes. cbn [cut strip_prefix].
  destruct (Ascii.eqb c d); [done |]. by destruct (cut s _) as [[??]|].
Qed.

Lemma includes_char_app (c : ascii) (a b : string) :
  includes (a +:+ b) (String c "")
  = includes a (String c "") || includes b (String c "").
Proof.
  induction a as [|d a IH]; [done |].
  by rewrite app_cons, !includes_char_cons, IH, orb_assoc.
Qed.

(** A replacement text without a dollar sign stands for itself. *)
Lemma getSubstitution_plain (matched before after tpl : string) :
  includes tpl "$" = false →
  getSubstitution matched before after tpl = tpl.
Proof.
  induction tpl as [|c r IH]; [done |].
  rewrite includes_char_cons, Ascii.eqb_sym. intros H.
  apply orb_false_iff in H as [Hc Hr].
  cbn [getSubstitution]. rewrite Hc. f_equal. by apply IH.
Qed.

Lemma replace_first (href lang before after : string) :
  includes lang "$" = false →
  cut href "/en/" = Some (before, after) →
  replace href "/en/" ("/" +:+ lang +:+ "/")
  = before +:+ "/" +:+ lang +:+ "/" +:+ after.
Proof.
  intros Hlang Hcut. unfold replace. rewrite Hcut.
  rewrite getSubstitution_plain, !app_assoc_s; [done |].
  by rewrite !includes_char_app, Hlang.
Qed.

Lemma getAttribute_run (st : State) (e : nat) (tag name : string)
    (attrs : list (string * string)) (cs : list nat) :
  nodes (dom st) !! e = Some (Element tag attrs cs) →
  getAttribute e name st = (st, Ok (attr_get name attrs)).
Proof.
  intros He. unfold getAttribute, mbind, M_bind, node_at. by rewrite He.
Qed.

Lemma setAttribute_run (st : State) (e : nat) (tag name value : string)
    (attrs : list (string * string)) (cs : list nat) :
  nodes (dom st) !! e = Some (Element tag attrs cs) →
  setAttribute e name value st
  = (with_dom st
       (Document (<[e := Element tag (attr_set name value attrs) cs]>
                    (nodes (dom st)))
                 (documentElement (dom st))),
     Ok tt).
Proof.
  intros He. unfold setAttribute, mbind, M_bind, node_at. by rewrite He.
Qed.

Lemma with_dom_same (st : State) (e : nat) (n : node) :
  nodes (dom st) !! e = Some n →
  with_dom st (Document (<[e := n]> (nodes (dom st))) (documentElement (dom st)))
  = st.
Proof.
  intros He. rewrite list_insert_id by done. by destruct st as [? ? ? ? []].
Qed.

(** What the new [href] is, from what the old one was. *)
Lemma href_rewritten_intro (lang href : string)
    (attrs : list (string * string)) :
  includes lang "$" = false →
  attr_get "href" attrs = Some href →
  href_rewritten lang attrs
    (if includes href "/en/"
     then attr_set "href" (replace href "/en/" ("/" +:+ lang +:+ "/")) attrs
     else attrs).
Proof.
  intros Hlang Hhref. unfold href_rewritten. rewrite Hhref.
  unfold includes. destruct (cut href "/en/") as [[before after]|] eqn:Hcut.
  - right. exists before, after. split; [by apply cut_first |].
    by rewrite (replace_first href lang before after).
  - by left.
Qed.

(** C7, as the code has it.  An [href] that contains [/en/] has its
    first occurrence replaced by the language between slashes, later
    occurrences are kept; an anchor without [href], or whose [href] has
    no [/en/], keeps its attributes.  This holds for
    [translateAnchorElement], whatever becomes of the text, and for the
    [href] update of the sibling script; the language holds no dollar
    sign, which [replace] would expand. *)
Theorem anchor_href_rewrite (st : State) (e : nat) (tag lang : string)
    (attrs : list (string * string)) (cs : list nat) :
  nodes (dom st) !! e = Some (Element tag attrs cs) →
  includes lang "$" = false →
  (∃ attrs' cs',
     nodes (dom (IndexJs.translateAnchorElement translate e lang st).1) !! e
     = Some (Element tag attrs' cs')
     ∧ href_rewritten lang attrs attrs')
  ∧ (∃ attrs',
       Part000.updateAnchorHref e lang st
       = (with_dom st
            (Document (<[e := Element tag attrs' cs]> (nodes (dom st)))
                      (documentElement (dom st))),
          Ok tt)
       ∧ href_rewritten lang attrs attrs').
Proof.
  intros He Hlang. split.
  - unfold IndexJs.translateAnchorElement.
    unfold mbind at 1, M_bind at 1. rewrite (getAttribute_run _ _ _ _ _ _ He).
    assert (∀ st1 attrs',
              nodes (dom st1) !! e = Some (Element tag attrs' cs) →
              href_rewritten lang attrs attrs' →
              ∃ attrs'' cs',
                nodes (dom ((tc ← textContent e;
                             let text := trim tc in
                             if negb (String.eqb text "") then
                               translatedText ← translateText translate text lang;
                               set_textContent e translatedText
                             else mret tt) st1).1) !! e
                = Some (Element tag attrs'' cs')
                ∧ href_rewritten lang attrs attrs'') as Hrest.
    { intros st1 attrs' H1 Hrw.
      assert (keeps e (tc ← textContent e;
                       let text := trim tc in
                       if negb (String.eqb text "") then
                         translatedText ← translateText translate text lang;
                         set_textContent e translatedText
                       else mret tt)) as Hk.
      { apply keeps_bind; [apply keeps_textContent | intros tc]. cbv zeta.
        destruct (negb _); [|apply keeps_ret].
        apply keeps_bind; [apply keeps_translateText | intros tr].
        apply keeps_set_textContent. }
      destruct (Hk st1 tag attrs' cs H1) as [cs' Hcs']. eauto. }
    destruct (attr_get "href" attrs) as [href|] eqn:Hhref.
    + pose proof (href_rewritten_intro lang href attrs Hlang Hhref) as Hrw.
      destruct (String.eqb_spec href "") as [->|Hne]; cbn [negb andb].
      * unfold mbind, M_bind, mret, M_ret at 1.
        apply (Hrest st attrs He). exact Hrw.
      * destruct (includes href "/en/").
        -- unfold mbind at 1, M_bind at 1.
           rewrite (setAttribute_run _ _ _ _ _ _ _ He).
           eapply Hrest; [|exact Hrw]. cbn.
           apply list_lookup_insert_eq. by apply lookup_lt_Some in He.
        -- unfold mbind, M_bind, mret, M_ret at 1. by apply (Hrest st attrs He).
    + unfold mbind, M_bind, mret, M_ret at 1.
      apply (Hrest st attrs He). unfold href_rewritten. by rewrite Hhref.
  - unfold Part000.updateAnchorHref, hasAttribute.
    unfold mbind, M_bind. rewrite !(getAttribute_run _ _ _ _ _ _ He).
    unfold mret, M_ret.
    destruct (attr_get "href" attrs) as [href|] eqn:Hhref.
    + pose proof (href_rewritten_intro lang href attrs Hlang Hhref) as Hrw.
      rewrite bool_decide_true by eauto.
      rewrite (getAttribute_run _ _ _ _ _ _ He), Hhref.
      destruct (includes href "/en/").
      * rewrite (setAttribute_run _ _ _ _ _ _ _ He). eauto.
      * exists attrs. by rewrite with_dom_same.
    + rewrite bool_decide_false by (by intros [??]).
      exists attrs. rewrite with_dom_same by done.
      split; [done |]. unfold href_rewritten. by rewrite Hhref.
Qed.

End AnchorHref.

Section AnchorExamples.

Import Fixtures.

Lemma anchor_href_rewrite_witness :
  (∃ attrs' cs',
     nodes (dom (IndexJs.translateAnchorElement tagging 7 "fr"
                   (with_dom initial page)).1) !! 7
     = Some (Element "a" attrs' cs')
     ∧ href_rewritten "fr" [("href", "/en/docs/en/x")] attrs')
  ∧ (∃ attrs',
       Part000.updateAnchorHref 7 "fr" (with_dom initial page)
       = (with_dom (with_dom initial page)
            (Document (<[7 := Element "a" attrs' [8]]> (nodes page)) 0),
          Ok tt)
       ∧ href_rewritten "fr" [("href", "/en/docs/en/x")] attrs').
Proof.
  apply (anchor_href_rewrite tagging (with_dom initial page) 7 "a" "fr"
           [("href", "/en/docs/en/x")] [8]);
    vm_compute; reflexivity.
Defined.

(** C7 fails as stated: of the two occurrences of [/en/] in
    [/en/docs/en/x] the first is replaced and the second is kept. *)
Lemma anchor_href_counterexample :
  getAttribute 7 "href"
    (IndexJs.translateAnchorElement tagging 7 "fr" (with_dom initial page)).1
  = ((IndexJs.translateAnchorElement tagging 7 "fr" (with_dom initial page)).1,
     Ok (Some "/fr/docs/en/x"))
  ∧ getAttribute 7 "href"
      (Part000.updateAnchorHref 7 "fr" (with_dom initial page)).1
    = ((Part000.updateAnchorHref 7 "fr" (with_dom initial page)).1,
       Ok (Some "/fr/docs/en/x"))
  ∧ includes "/fr/docs/en/x" "/en/" = true.
Proof. vm_compute. done. Qed.

End AnchorExamples.

(** ** The element text policy *)

Section ElementText.

Variable translate : list (string * string) → string → string → option string.

Lemma strip_prefix_lower (p s r : string) :
  strip_prefix p s = Some r →
  strip_prefix (toLowerCase p) (toLowerCase s) = Some (toLowerCase r).
Proof.
  intros ->%strip_prefix_Some. induction p as [|c p IH]; [done |].
  rewrite app_cons. cbn [toLowerCase strip_prefix].
  by rewrite Ascii.eqb_refl.
Qed.

Lemma cut_lower (s p before after : string) :
  cut s p = Some (before, after) →
  includes (toLowerCase s) (toLowerCase p) = true.
Proof.
  unfold includes. revert before after.
  induction s as [|c s IH]; intros before after; cbn [cut].
  - destruct (strip_prefix p "") as [r|] eqn:E; [|discriminate].
    intros _. apply strip_prefix_lower in E. cbn [toLowerCase] in *.
    cbn [cut]. by rewrite E.
  - destruct (strip_prefix p (String c s)) as [r|] eqn:E.
    + intros _. apply strip_prefix_lower in E. cbn [toLowerCase] in *.
      cbn [cut]. by rewrite E.
    + destruct (cut s p) as [[b a]|] eqn:E'; [|discriminate].
      intros _. specialize (IH b a eq_refl). cbn [toLowerCase cut].
      destruct (strip_prefix (toLowerCase p) _); [done |].
      destruct (cut (toLowerCase s) (toLowerCase p)) as [[??]|];
        [done | discriminate IH].
Qed.

(** A text that holds the brand token holds it also once lowered. *)
Lemma includes_brand_lower (s : string) :
  includes s brand = true → includes (toLowerCase s) brand = true.
Proof.
  unfold includes at 1. destruct (cut s brand) as [[b a]|] eqn:E; [|done].
  intros _. by apply (cut_lower s brand b a).
Qed.

(** The element text policy in the sibling script: nothing happens for
    an element whose trimmed text is empty, starts with the copyright
    sign, or holds the brand token, in any letter case. *)
Lemma translateElementText_skips (st : State) (element : nat)
    (lang tc : string) :
  textContent element st = (st, Ok tc) →
  trim tc = ""
  ∨ startsWith (trim tc) copyright = true
  ∨ includes (trim tc) brand = true
  ∨ includes (toLowerCase (trim tc)) brand = true →
  Part000.translateElementText translate element lang st = (st, Ok tt).
Proof.
  intros Htc H. unfold Part000.translateElementText.
  unfold mbind at 1, M_bind at 1. rewrite Htc. cbv zeta.
  destruct (String.eqb_spec (trim tc) "") as [|Hne]; [done |].
  destruct H as [H|[H|[H|H]]]; [done | | |].
  - by rewrite H.
  - by rewrite (includes_brand_lower _ H), orb_true_r.
  - by rewrite H, orb_true_r.
Qed.

(** In [src/index.js] the same holds with the two characters that
    stand there for the copyright sign. *)
Lemma translateElementText_skips_index (st : State) (element : nat)
    (lang tc : string) :
  textContent element st = (st, Ok tc) →
  trim tc = ""
  ∨ startsWith (trim tc) copyright_mangled = true
  ∨ includes tc brand = true
  ∨ includes (toLowerCase tc) brand = true →
  IndexJs.translateElementText translate element lang st = (st, Ok tt).
Proof.
  intros Htc H. unfold IndexJs.translateElementText.
  unfold mbind at 1, M_bind at 1. rewrite Htc.
  destruct H as [H|[H|[H|H]]].
  - by rewrite H.
  - by rewrite H, orb_true_r.
  - by rewrite (includes_brand_lower _ H), orb_true_r.
  - by rewrite H, orb_true_r.
Qed.

End ElementText.

Section ElementTextExamples.

Import Fixtures.

(** C6 at the failing input.  The paragraph of [page] starts with the
    copyright sign; [translateElementText] of [src/index.js] sends its
    text to the provider and writes the answer into the text node, while
    the sibling script leaves the element alone. *)
Lemma copyright_paragraph_translated :
  let st := with_dom initial page in
  let st' := (IndexJs.translateElementText tagging 5 "fr" st).1 in
  textContent 5 st = (st, Ok (copyright +:+ " 2024 Acme"))
  ∧ startsWith (trim (copyright +:+ " 2024 Acme")) copyright = true
  ∧ requests st' = [(copyright +:+ " 2024 Acme", "fr")]
  ∧ nodes (dom st') !! 6 = Some (Text ("[fr]" +:+ copyright +:+ " 2024 Acme"))
  ∧ Part000.translateElementText tagging 5 "fr" st = (st, Ok tt).
Proof. vm_compute. done. Qed.

End ElementTextExamples.

(** ** Alternate links *)

Section AlternateExamples.

Import Fixtures.

(** C2 at the failing input: a page without links, two languages, the
    root path.  The file that [src/index.js] writes has no alternate
    link: they went to the document parsed first, which is dropped.
    The sibling script writes one link for each language, whose [href]
    is not the canonical URL of that language. *)
Lemma alternates_of_generated_files :
  (alternates ∘ out_document)
    <$> written (IndexJs.translateHTML tagging always blank
                   "en/index.html" "." languages initial).1
  = [ [] ]
  ∧ (alternates ∘ out_document)
      <$> written (Part000.translateHTML tagging always blank
                     "en/index.html" "." languages initial).1
    = [ [ (Some "fr", Some "https://evaluating.tools/fr/.");
          (Some "de", Some "https://evaluating.tools/de/.") ] ]
  ∧ Part000.canonicalUrl "." "fr" = "https://evaluating.tools/fr/"
  ∧ Part000.canonicalUrl "." "de" = "https://evaluating.tools/de/"
  ∧ IndexJs.constructCanonicalUrl "." "fr" = "https://evaluating.tools/fr/"
  ∧ IndexJs.constructCanonicalUrl "." "de" = "https://evaluating.tools/de/".
Proof. vm_compute. done. Qed.

End AlternateExamples.

(** ** The loop over the languages *)

Section PerLocaleLoop.

Variable translate : list (string * string) → string → string → option string.
Variable writable : string → string → string → bool.











































End PerLocaleLoop.

Section PerLocaleLoopExamples.

Import Fixtures.

(** Three languages, the provider rejecting the requests for the second:
    its processing throws on the split path of [translateText], the error
    is logged, and the third language is processed as the first was. *)
Lemma createFiles_middle_language_fails :
  let languages := [Locale "fr" true; Locale "de" true; Locale "es" true] in
  let st1 := (IndexJs.createFiles (failing_for "de") always branded
                "en/index.html" "." languages initial).1 in
  let st2 := (Part000.createFiles (failing_for "de") always branded
                "en/index.html" "." languages initial).1 in
  flat_map ended (console st1) = [("fr", true); ("de", false); ("es", true)]
  ∧ out_lang <$> written st1 = ["fr"; "es"]
  ∧ flat_map ended (console st2) = [("fr", true); ("de", false); ("es", true)]
  ∧ out_lang <$> written st2 = ["fr"; "es"]
  ∧ console st2
    = [ Translated "en/index.html" "fr";
        ErrorProcessingFile "en/index.html" "de" (ProviderFailure "About" "de");
        Translated "en/index.html" "es" ].
Proof. vm_compute. done. Qed.

End PerLocaleLoopExamples.

(** ** More on the translation cache and the provider adapter *)

Section TranslateTextMore.

Variable translate : list (string * string) → string → string → option string.

(** X1.  [translateText] never removes or replaces an entry of the cache:
    what was stored stays stored, and the only key that can be added is
    the key of the call. *)
Theorem translateText_cache_grows (st : State) (text lang : string) :
  translationCache st ⊆ translationCache (translateText translate text lang st).1
  ∧ delete (cacheKey lang text)
      (translationCache (translateText translate text lang st).1)
    = delete (cacheKey lang text) (translationCache st).
Proof.
  destruct (translationCache st !! cacheKey lang text) as [cached|] eqn:Hc.
  { by rewrite (translateText_hit _ _ _ _ _ Hc). }
  destruct (includes (toLowerCase text) brand) eqn:Hb.
  - rewrite translateText_miss_brand by done. cbv zeta.
    destruct (promise_all _ st).2 as [l|e]; cbn [fst]; [|done].
    cbn. split; [by apply insert_subseteq | apply delete_insert_eq].
  - rewrite translateText_miss_plain by done. cbv zeta.
    destruct (translate _ _ _) as [result|]; cbn [fst]; [|done].
    cbn. split; [by apply insert_subseteq | apply delete_insert_eq].
Qed.

(** X2.  [translateText] touches neither the document nor the files
    written, and the record of requests and the console only grow. *)
Theorem translateText_frame (st : State) (text lang : string) :
  dom (translateText translate text lang st).1 = dom st
  ∧ written (translateText translate text lang st).1 = written st
  ∧ requests st `prefix_of` requests (translateText translate text lang st).1
  ∧ console st `prefix_of` console (translateText translate text lang st).1.
Proof.
  destruct (translationCache st !! cacheKey lang text) as [cached|] eqn:Hc.
  { by rewrite (translateText_hit _ _ _ _ _ Hc). }
  destruct (includes (toLowerCase text) brand) eqn:Hb.
  - rewrite translateText_miss_brand by done. cbv zeta.
    destruct (promise_all _ st).2 as [l|e]; cbn;
      (repeat split; first [done | by apply prefix_app_r]).
  - rewrite translateText_miss_plain by done. cbv zeta.
    destruct (translate _ _ _) as [result|]; cbn;
      (repeat split; first [done | by apply prefix_app_r]).
Qed.

(** A text without the brand token never makes [translateText] reject. *)
Lemma translateText_plain_returns (st : State) (text lang : string) :
  includes (toLowerCase text) brand = false →
  ∃ v, (translateText translate text lang st).2 = Ok v.
Proof.
  intros Hb.
  destruct (translationCache st !! cacheKey lang text) as [cached|] eqn:Hc.
  { rewrite (translateText_hit _ _ _ _ _ Hc). by exists cached. }
  rewrite translateText_miss_plain by done. cbv zeta.
  destruct (translate _ _ _) as [result|]; eauto.
Qed.

(** X3.  For a text without the brand token, in any letter case,
    [translateText] always returns: either the string now stored under
    the key of the call, or, when the provider failed, the text itself
    with nothing stored. *)
Theorem translateText_plain_total (st : State) (text lang : string) :
  includes (toLowerCase text) brand = false →
  ∃ st' v,
    translateText translate text lang st = (st', Ok v)
    ∧ (translationCache st' !! cacheKey lang text = Some v
       ∨ (v = text ∧ translationCache st' !! cacheKey lang text = None)).
Proof.
  intros Hb.
  destruct (translationCache st !! cacheKey lang text) as [cached|] eqn:Hc.
  { rewrite (translateText_hit _ _ _ _ _ Hc). eauto. }
  rewrite translateText_miss_plain by done. cbv zeta.
  destruct (translate _ _ _) as [result|].
  - eexists _, result. split; [done |]. left. cbn. apply lookup_insert_eq.
  - eexists _, text. split; [done |]. by right.
Qed.


End TranslateTextMore.

(** ** More on the element text policy *)

Section ElementTextMore.

Variable translate : list (string * string) → string → string → option string.


Lemma textContent_element (e : nat) (st : State) (tag : string)
    (attrs : list (string * string)) (cs : list nat) :
  nodes (dom st) !! e = Some (Element tag attrs cs) →
  textContent e st
  = (st, Ok (foldr (λ c acc, text_of (length (nodes (dom st))) (nodes (dom st)) c
                             +:+ acc) "" cs)).
Proof.
  intros He. unfold textContent, mbind, M_bind, node_at, get_state.
  rewrite He. unfold mret, M_ret. cbn [text_of]. by rewrite He.
Qed.

(** Reading the text of an element after writing it gives what was
    written. *)
Lemma textContent_set_textContent (e : nat) (value : string) (st : State)
    (tag : string) (attrs : list (string * string)) (cs : list nat) :
  nodes (dom st) !! e = Some (Element tag attrs cs) →
  ∃ st', set_textContent e value st = (st', Ok tt)
         ∧ textContent e st' = (st', Ok value)
         ∧ translationCache st' = translationCache st
         ∧ requests st' = requests st
         ∧ console st' = console st
         ∧ written st' = written st.
Proof.
  intros He. pose proof (lookup_lt_Some _ _ _ He) as Hlt.
  unfold set_textContent, mbind, M_bind, node_at. rewrite He.
  destruct (String.eqb_spec value "") as [->|Hne].
  - eexists. split; [done |]. split; [|done].
    erewrite textContent_element.
    2:{ cbn. by apply list_lookup_insert_eq. }
    done.
  - cbn [alloc]. eexists. split; [done |]. split; [|done].
    erewrite textContent_element.
    2:{ cbn. apply list_lookup_insert_eq. rewrite length_app. lia. }
    cbn [foldr dom nodes with_dom].
    rewrite length_insert, length_app. cbn [length].
    rewrite Nat.add_1_r. cbn [text_of].
    rewrite list_lookup_insert_ne by lia.
    rewrite lookup_app_r by lia. rewrite Nat.sub_diag. cbn.
    by rewrite app_nil_end.
Qed.


(** A [try] whose handler reads the text of [e] and logs returns, when
    the body keeps [e] an element. *)
Lemma try_catch_logged (e : nat) (lang : string) (body : M unit) (st : State) :
  keeps e body →
  is_element_of st e →
  ∃ st', try_catch body
           (λ err, tc ← textContent e;
                   console_log (ErrorTranslatingElement tc lang err)) st
         = (st', Ok tt).
Proof.
  intros Hk (tag & attrs & cs & He). unfold try_catch.
  destruct (Hk st tag attrs cs He) as [cs' He'].
  destruct (body st) as [st1 [[]|err]]; [by eexists |]. cbn [fst] in He'.
  unfold mbind, M_bind. rewrite (textContent_element _ _ _ _ _ He').
  by eexists.
Qed.

(** X6.  [translateElementText] never throws for an element of the
    document, in either script, whatever the provider does: the sibling
    script sends only token-free text to [translateText], [src/index.js]
    catches what it throws. *)
Theorem translateElementText_returns (st : State) (element : nat) (lang : string) :
  is_element_of st element →
  (∃ st', Part000.translateElementText translate element lang st = (st', Ok tt))
  ∧ (∃ st', IndexJs.translateElementText translate element lang st = (st', Ok tt)).
Proof.
  intros (tag & attrs & cs & He). split.
  - unfold Part000.translateElementText. unfold mbind at 1, M_bind at 1.
    rewrite (textContent_element _ _ _ _ _ He). cbv zeta.
    destruct (String.eqb _ ""); [by eexists |].
    destruct (startsWith _ _); cbn [orb]; [by eexists |].
    destruct (includes _ brand) eqn:Hb; [by eexists |].
    destruct (translateText_plain_returns translate st _ lang Hb) as [v Hv].
    unfold mbind, M_bind.
    pose proof (translateText_dom translate
                  (trim (foldr (λ c acc, text_of (length (nodes (dom st)))
                                           (nodes (dom st)) c +:+ acc) "" cs))
                  lang st) as Hdom.
    destruct (translateText translate _ lang st) as [st1 r].
    cbn [fst snd] in *. subst r. rewrite <- Hdom in He.
    destruct (textContent_set_textContent element v st1 tag attrs cs He)
      as (st' & Hset & _). by exists st'.
  - unfold IndexJs.translateElementText. unfold mbind at 1, M_bind at 1.
    rewrite (textContent_element _ _ _ _ _ He).
    destruct (_ || _); [by eexists |].
    apply try_catch_logged; [|by exists tag, attrs, cs].
    apply keeps_bind; [apply keeps_childNodes | intros cn].
    destruct (0 <? length cn)%nat.
    + apply keeps_for_of. intros child.
      apply keeps_bind; [apply keeps_node_at | intros [v|v|tag' attrs' cs']];
        try apply keeps_ret.
      apply keeps_bind; [apply keeps_translateText | intros tr].
      apply keeps_set_nodeValue.
    + apply keeps_bind; [apply keeps_textContent | intros tc'].
      apply keeps_bind; [apply keeps_translateText | intros tr].
      apply keeps_set_textContent.
Qed.

End ElementTextMore.

(** ** What the text translation of [src/index.js] leaves alone *)

Section Structure.

Variable translate : list (string * string) → string → string → option string.






(** X8.  [src/index.js] hands the [content] of a selected [meta] element
    to [translateText] without looking at it.  For an element without
    that attribute the value is [null]: the key is built from the text
    [null], and on a miss the call throws a [TypeError], which ends the
    processing of the language; on a hit the cached translation of the
    word [null] becomes the [content]. *)
Theorem translateMetaContent_without_content (st : State) (sel : selector)
    (lang : string) (meta : nat) (tag : string)
    (attrs : list (string * string)) (cs : list nat) :
  querySelector sel st = (st, Ok (Some meta)) →
  nodes (dom st) !! meta = Some (Element tag attrs cs) →
  attr_get "content" attrs = None →
  IndexJs.translateMetaContent translate sel lang st
  = match translationCache st !! cacheKey lang "null" with
    | None => (st, Throw (TypeError "toLowerCase of null"))
    | Some cached =>
        (with_dom st
           (Document (<[meta := Element tag (attr_set "content" cached attrs) cs]>
                        (nodes (dom st)))
                     (documentElement (dom st))),
         Ok tt)
    end.
Proof.
  intros Hsel Hmeta Hcontent. unfold IndexJs.translateMetaContent.
  unfold mbind at 1, M_bind at 1. rewrite Hsel.
  unfold mbind at 1, M_bind at 1.
  rewrite (getAttribute_run _ _ _ _ _ _ Hmeta), Hcontent.
  unfold translateTextOrNull, mbind, M_bind, get_state.
  destruct (translationCache st !! cacheKey lang "null") as [cached|]; [|done].
  unfold mret, M_ret. by rewrite (setAttribute_run _ _ _ _ _ _ _ Hmeta).
Qed.

End Structure.

(** ** More on canonical URLs *)

Section CanonicalUrlMore.

Lemma strip_trailing_slashes_snoc (s : string) :
  strip_trailing_slashes (s +:+ "/") = strip_trailing_slashes s.
Proof.
  induction s as [|c s IH]; [done |].
  rewrite app_cons. cbn [strip_trailing_slashes]. by rewrite IH.
Qed.

Lemma backslashes_to_slashes_app (a b : string) :
  backslashes_to_slashes (a +:+ b)
  = backslashes_to_slashes a +:+ backslashes_to_slashes b.
Proof.
  induction a as [|c a IH]; [done |].
  rewrite app_cons. cbn [backslashes_to_slashes]. by rewrite IH, app_cons.
Qed.

Lemma strip_trailing_slashes_dot (s : string) :
  strip_trailing_slashes (String "." s) = String "." (strip_trailing_slashes s).
Proof. cbn [strip_trailing_slashes]. by destruct (strip_trailing_slashes s). Qed.

(** X9.  Slashes at the end of the relative path do not change the
    canonical URL, in either script; neither does a backslash at the end
    for [constructCanonicalUrl], which reads it as a slash, nor a dot at
    the start for the sibling script. *)
Theorem canonical_url_ignores_padding (relativePath lang : string) :
  IndexJs.constructCanonicalUrl (relativePath +:+ "/") lang
    = IndexJs.constructCanonicalUrl relativePath lang
  ∧ IndexJs.constructCanonicalUrl (relativePath +:+ "\") lang
    = IndexJs.constructCanonicalUrl relativePath lang
  ∧ Part000.canonicalUrl (relativePath +:+ "/") lang
    = Part000.canonicalUrl relativePath lang
  ∧ Part000.canonicalUrl ("." +:+ relativePath) lang
    = Part000.canonicalUrl relativePath lang.
Proof.
  unfold IndexJs.constructCanonicalUrl, Part000.canonicalUrl,
    Part000.cleanRelativePath.
  rewrite !backslashes_to_slashes_app. cbn [backslashes_to_slashes].
  change (if Ascii.eqb "/" "\" then "/"%char else "/"%char) with "/"%char.
  change (if Ascii.eqb "\" "\" then "/"%char else "\"%char) with "/"%char.
  rewrite !strip_trailing_slashes_snoc.
  change ("." +:+ relativePath) with (String "." relativePath).
  rewrite strip_trailing_slashes_dot. done.
Qed.

Lemma strip_leading_dots_id (s : string) :
  startsWith s "." = false → strip_leading_dots s = s.
Proof.
  destruct s as [|c s]; [done |]. unfold startsWith.
  cbn [strip_prefix strip_leading_dots]. rewrite (Ascii.eqb_sym "." c).
  destruct (Ascii.eqb c "."); [discriminate | done].
Qed.

(** X10.  The two scripts build the same canonical URL for a relative
    path without backslashes whose cleaned form neither starts with a
    dot nor ends in [.html]. *)
Theorem canonical_url_variants_agree (relativePath lang : string) :
  backslashes_to_slashes relativePath = relativePath →
  startsWith (strip_trailing_slashes relativePath) "." = false →
  endsWith (strip_trailing_slashes relativePath) ".html" = false →
  IndexJs.constructCanonicalUrl relativePath lang
  = Part000.canonicalUrl relativePath lang.
Proof.
  intros Hb Hdot Hhtml.
  unfold IndexJs.constructCanonicalUrl, Part000.canonicalUrl,
    Part000.cleanRelativePath.
  rewrite Hb, (strip_leading_dots_id _ Hdot), Hhtml. cbn [negb].
  destruct (String.eqb_spec (strip_trailing_slashes relativePath) ".") as [E|_].
  { rewrite E in Hdot. discriminate. }
  destruct (String.eqb _ ""); cbn [orb]; [|done].
  by rewrite !app_nil_end.
Qed.

Lemma endsWith_app_nonempty (a p q : string) :
  p ≠ "" → String.length q ≤ String.length p →
  endsWith (a +:+ p) q = endsWith p q.
Proof.
  intros Hp Hlen. induction a as [|c a IH]; [done |].
  rewrite app_cons, endsWith_cons, IH.
  destruct (String.eqb_spec (String c (a +:+ p)) q) as [E|_]; [|done].
  exfalso. apply (f_equal String.length) in E. cbn in E.
  assert (String.length p ≤ String.length (a +:+ p)) as Hle.
  { clear. induction a as [|d a IH]; [done |]. rewrite app_cons. cbn. lia. }
  lia.
Qed.

(** X11.  The canonical URL of the sibling script always ends in a
    slash, while the [href] it gives to an alternate link ends as the
    relative path does: for every relative path that is not empty and
    does not end in a slash, which is all that [path.dirname] returns
    for a file below the input folder, the alternate [href] differs from
    the canonical URL of the same language. *)
Theorem alternate_href_not_canonical (relativePath lang : string) :
  relativePath ≠ "" →
  endsWith relativePath "/" = false →
  endsWith (Part000.canonicalUrl relativePath lang) "/" = true
  ∧ endsWith (Part000.alternateUrl relativePath lang) "/" = false
  ∧ Part000.alternateUrl relativePath lang
    ≠ Part000.canonicalUrl relativePath lang.
Proof.
  intros Hne Hend.
  assert (endsWith (Part000.canonicalUrl relativePath lang) "/" = true) as H1.
  { unfold Part000.canonicalUrl. destruct (_ || _).
    - rewrite <- !app_assoc_s. apply endsWith_app.
    - rewrite <- !app_assoc_s. apply endsWith_app. }
  assert (endsWith (Part000.alternateUrl relativePath lang) "/" = false) as H2.
  { unfold Part000.alternateUrl. rewrite <- !app_assoc_s.
    rewrite endsWith_app_nonempty; [done | done |].
    destruct relativePath; [done | cbn; lia]. }
  split; [done |]. split; [done |]. intros E. rewrite E in H2. congruence.
Qed.

End CanonicalUrlMore.

(** ** The alternates of the document parsed first *)

Section FirstLoop.

Variable translate : list (string * string) → string → string → option string.
Variable writable : string → string → string → bool.

Lemma bind_run {A B} (m : M A) (f : A → M B) (st : State) :
  (m ≫= f) st
  = match m st with
    | (st', Ok a) => f a st'
    | (st', Throw e) => (st', Throw e)
    end.
Proof. reflexivity. Qed.

Lemma with_dom_dom (st : State) : with_dom st (dom st) = st.
Proof. by destruct st. Qed.

Lemma dom_only_ret {A} (a : A) : dom_only (mret a).
Proof. intros st. exists (dom st). by rewrite with_dom_dom. Qed.

Lemma dom_only_throw {A} (err : exn) : dom_only (throw (A := A) err).
Proof. intros st. exists (dom st). by rewrite with_dom_dom. Qed.

Lemma dom_only_get_state : dom_only get_state.
Proof. intros st. exists (dom st). by rewrite with_dom_dom. Qed.

Lemma dom_only_node_at (e : nat) : dom_only (node_at e).
Proof.
  intros st. exists (dom st). rewrite with_dom_dom.
  unfold node_at. by destruct (_ !! e).
Qed.

Lemma dom_only_update_node (e : nat) (n : node) : dom_only (update_node e n).
Proof. intros st. by eexists. Qed.

Lemma dom_only_alloc (n : node) : dom_only (alloc n).
Proof. intros st. by eexists. Qed.

Lemma dom_only_bind {A B} (m : M A) (f : A → M B) :
  dom_only m → (∀ a, dom_only (f a)) → dom_only (m ≫= f).
Proof.
  intros Hm Hf st. destruct (Hm st) as [d Hd].
  unfold mbind, M_bind. destruct (m st) as [st1 [a|err]]; cbn [fst] in *.
  - destruct (Hf a st1) as [d' Hd']. exists d'. by rewrite Hd', Hd.
  - by exists d.
Qed.

Lemma dom_only_for_of {A} (xs : list A) (body : A → M unit) :
  (∀ x, dom_only (body x)) → dom_only (for_of xs body).
Proof.
  intros Hbody. induction xs as [|x xs IH]; cbn [for_of].
  - apply dom_only_ret.
  - apply dom_only_bind; [apply Hbody | by intros _].
Qed.

Ltac dom_only_step :=
  first
    [ apply dom_only_ret | apply dom_only_throw | apply dom_only_get_state
    | apply dom_only_node_at | apply dom_only_update_node
    | apply dom_only_alloc
    | apply dom_only_for_of; intros ?
    | apply dom_only_bind; [|intros ?]
    | match goal with
      | |- dom_only (match ?x with _ => _ end) => destruct x
      | |- dom_only (let _ := _ in _) => cbv zeta
      end ].

(** The first loop of either script only adds nodes to the document it
    works on. *)
Lemma dom_only_alternates (relativePath : string)
    (languages : list LocaleDescriptor) :
  dom_only (IndexJs.updateAlternates relativePath languages)
  ∧ dom_only (Part000.addAlternates relativePath languages).
Proof.
  split.
  - unfold IndexJs.updateAlternates, querySelector, querySelectorAll,
      createElement, setAttribute, head_appendChild, document_head, appendChild.
    repeat dom_only_step.
  - unfold Part000.addAlternates, querySelector, querySelectorAll,
      createElement, setAttribute, head_appendChild, document_head, appendChild.
    repeat dom_only_step.
Qed.

(** The processing of a language starts from the file as parsed: the
    document it finds in the state does not matter. *)
Lemma set_dom_first {A} (content d : document) (rest : M A) (st : State) :
  (set_dom content ;; rest) (with_dom st d) = (set_dom content ;; rest) st.
Proof. reflexivity. Qed.

Lemma loop_forgets_dom (filePath : string) (skip : LocaleDescriptor → M unit)
    (body : string → M unit) (languages : list LocaleDescriptor) :
  (∀ langObj st d, skip langObj (with_dom st d)
                   = (with_dom (skip langObj st).1 d, (skip langObj st).2)) →
  (∀ langObj st, (skip langObj st).2 = Ok tt) →
  (∀ lang st d, body lang (with_dom st d) = body lang st) →
  ∀ st d, ∃ d',
    for_of languages (language_turn filePath skip body) (with_dom st d)
    = (with_dom (for_of languages (language_turn filePath skip body) st).1 d',
       (for_of languages (language_turn filePath skip body) st).2).
Proof.
  intros Hskip Hok Hbody.
  induction languages as [|langObj languages IH]; intros st d.
  - by exists d.
  - cbn [for_of]. unfold mbind, M_bind. unfold language_turn at 1 3 5.
    destruct (createnew langObj); cbn [negb].
    + unfold try_catch. rewrite Hbody.
      destruct (body (code langObj) st) as [st1 [[]|err]].
      * exists (dom (for_of languages (language_turn filePath skip body) st1).1).
        rewrite with_dom_dom.
        by destruct (for_of languages (language_turn filePath skip body) st1).
      * cbn [console_log].
        set (st2 := with_console st1 _).
        exists (dom (for_of languages (language_turn filePath skip body) st2).1).
        rewrite with_dom_dom.
        by destruct (for_of languages (language_turn filePath skip body) st2).
    + rewrite Hskip. specialize (Hok langObj st).
      destruct (skip langObj st) as [st1 r]. cbn [fst snd] in *. subst r.
      apply IH.
Qed.

(** X12.  What either script adds to the document parsed first is lost:
    when the first loop returns, [translateHTML] requests, caches, logs
    and writes exactly what the loop over the languages does on its own;
    when the first loop throws, for want of a [head], no language is
    processed. *)
Theorem translateHTML_first_loop_lost (content : document)
    (filePath relativePath : string) (languages : list LocaleDescriptor)
    (st : State) :
  ((IndexJs.updateAlternates relativePath languages (with_dom st content)).2
   = Ok tt →
   ∃ d, IndexJs.translateHTML translate writable content filePath relativePath
          languages st
        = (with_dom (IndexJs.createFiles translate writable content filePath
                       relativePath languages st).1 d,
           (IndexJs.createFiles translate writable content filePath
              relativePath languages st).2))
  ∧ ((Part000.addAlternates relativePath languages (with_dom st content)).2
     = Ok tt →
     ∃ d, Part000.translateHTML translate writable content filePath relativePath
            languages st
          = (with_dom (Part000.createFiles translate writable content filePath
                         relativePath languages st).1 d,
             (Part000.createFiles translate writable content filePath
                relativePath languages st).2))
  ∧ (∀ err,
       (IndexJs.updateAlternates relativePath languages (with_dom st content)).2
       = Throw err →
       ∃ d, IndexJs.translateHTML translate writable content filePath
              relativePath languages st
            = (with_dom st d, Throw err))
  ∧ (∀ err,
       (Part000.addAlternates relativePath languages (with_dom st content)).2
       = Throw err →
       ∃ d, Part000.translateHTML translate writable content filePath
              relativePath languages st
            = (with_dom st d, Throw err)).
Proof.
  destruct (dom_only_alternates relativePath languages) as [H1 H2].
  specialize (H1 (with_dom st content)). specialize (H2 (with_dom st content)).
  destruct H1 as [d1 H1], H2 as [d2 H2].
  unfold IndexJs.translateHTML, Part000.translateHTML.
  rewrite !(bind_run (set_dom content)). cbn [set_dom].
  rewrite (bind_run (IndexJs.updateAlternates relativePath languages)).
  rewrite (bind_run (Part000.addAlternates relativePath languages)).
  destruct (IndexJs.updateAlternates relativePath languages (with_dom st content))
    as [sa ra];
  destruct (Part000.addAlternates relativePath languages (with_dom st content))
    as [sb rb];
  cbn [fst snd] in *; subst sa sb.
  split; [|split; [|split]].
  - intros ->. change (with_dom (with_dom st content) d1) with (with_dom st d1).
    apply (loop_forgets_dom filePath (λ _, mret tt)
             (IndexJs.translateFor translate writable content filePath
                relativePath)); [done | done |].
    intros lang st0 d. apply set_dom_first.
  - intros ->. change (with_dom (with_dom st content) d2) with (with_dom st d2).
    apply (loop_forgets_dom filePath
             (λ langObj, console_log (SkippingCreation (code langObj)))
             (λ lang, Part000.translateFor translate writable content filePath
                        relativePath lang languages)); [done | done |].
    intros lang st0 d. apply set_dom_first.
  - intros err ->. by exists d1.
  - intros err ->. by exists d2.
Qed.

End FirstLoop.

(** ** The attributes set at the start of the processing of a language *)

Section Attributes.

Variable translate : list (string * string) → string → string → option string.
Variable writable : string → string → string → bool.

Lemma attr_get_set (k v : string) (attrs : list (string * string)) :
  attr_get k (attr_set k v attrs) = Some v.
Proof.
  induction attrs as [|[k' v'] attrs IH]; cbn.
  - by rewrite String.eqb_refl.
  - destruct (String.eqb k' k) eqn:E; cbn; by rewrite E.
Qed.

Lemma attr_get_set_ne (k name v : string) (attrs : list (string * string)) :
  name ≠ k → attr_get k (attr_set name v attrs) = attr_get k attrs.
Proof.
  intros Hne. induction attrs as [|[k' v'] attrs IH]; cbn.
  - by destruct (String.eqb_spec name k).
  - destruct (String.eqb_spec k' name) as [->|Hk]; cbn.
    + by destruct (String.eqb_spec name k).
    + by destruct (String.eqb k' k).
Qed.

Lemma keeps_attr_of_keeps {A} (e : nat) (k : string) (m : M A) :
  keeps e m → keeps_attr e k m.
Proof.
  intros Hk st v (tag & attrs & cs & He & Hv).
  destruct (Hk st tag attrs cs He) as [cs' He']. by exists tag, attrs, cs'.
Qed.

Lemma keeps_attr_bind {A B} (e : nat) (k : string) (m : M A) (f : A → M B) :
  keeps_attr e k m → (∀ a, keeps_attr e k (f a)) → keeps_attr e k (m ≫= f).
Proof.
  intros Hm Hf st v H. specialize (Hm st v H).
  unfold mbind, M_bind. destruct (m st) as [st1 [a|err]]; cbn [fst] in *.
  - by apply Hf.
  - done.
Qed.

Lemma keeps_attr_try_catch {A} (e : nat) (k : string) (m : M A)
    (h : exn → M A) :
  keeps_attr e k m → (∀ err, keeps_attr e k (h err)) →
  keeps_attr e k (try_catch m h).
Proof.
  intros Hm Hh st v H. specialize (Hm st v H).
  unfold try_catch. destruct (m st) as [st1 [a|err]]; cbn [fst] in *.
  - done.
  - by apply Hh.
Qed.

Lemma keeps_attr_for_of {A} (e : nat) (k : string) (xs : list A)
    (body : A → M unit) :
  (∀ x, keeps_attr e k (body x)) → keeps_attr e k (for_of xs body).
Proof.
  intros Hbody. induction xs as [|x xs IH]; cbn [for_of].
  - by intros st v H.
  - apply keeps_attr_bind; [apply Hbody | by intros _].
Qed.

Lemma keeps_attr_dom {A} (e : nat) (k : string) (m : M A) :
  (∀ st, dom (m st).1 = dom st) → keeps_attr e k m.
Proof. intros H st v Hv. by rewrite H. Qed.

(** [setAttribute] for another attribute name. *)
Lemma keeps_attr_setAttribute (e x : nat) (k name value : string) :
  name ≠ k → keeps_attr e k (setAttribute x name value).
Proof.
  intros Hne st v (tag & attrs & cs & He & Hv).
  unfold setAttribute, mbind, M_bind, node_at.
  destruct (nodes (dom st) !! x) as [[t|t|tag' attrs' cs']|] eqn:Hx;
    [by exists tag, attrs, cs.. | | by exists tag, attrs, cs].
  destruct (decide (x = e)) as [->|Hxe].
  - rewrite He in Hx. injection Hx as <- <- <-.
    exists tag, (attr_set name value attrs), cs.
    split; [|by rewrite attr_get_set_ne].
    cbn. apply list_lookup_insert_eq. by apply lookup_lt_Some in He.
  - exists tag, attrs, cs. cbn. by rewrite list_lookup_insert_ne.
Qed.

Lemma keeps_alloc (e : nat) (n : node) : keeps e (alloc n).
Proof.
  intros st tag attrs cs He. exists cs. cbn. by apply lookup_app_l_Some.
Qed.

Lemma keeps_appendChild (e parent child : nat) :
  keeps e (appendChild parent child).
Proof.
  intros st tag attrs cs He.
  unfold appendChild, mbind, M_bind, node_at.
  destruct (nodes (dom st) !! parent) as [[v|v|tag' attrs' cs']|] eqn:Hx;
    [by eauto.. | | by eauto].
  eapply update_node_lookup; [done |].
  intros ->. rewrite He in Hx. injection Hx as <- <- <-. eauto.
Qed.

Lemma querySelectorAll_state (sel : selector) (st : State) :
  (querySelectorAll sel st).1 = st.
Proof. done. Qed.

Lemma querySelector_state (sel : selector) (st : State) :
  (querySelector sel st).1 = st.
Proof. done. Qed.

Lemma document_head_state (st : State) : (document_head st).1 = st.
Proof.
  unfold document_head, mbind, M_bind, get_state.
  by destruct (nodes (dom st) !! documentElement (dom st)) as [[| |]|].
Qed.

Lemma keeps_head_appendChild (e child : nat) :
  keeps e (head_appendChild child).
Proof.
  apply keeps_bind.
  - apply keeps_dom. intros st. by rewrite document_head_state.
  - intros [h|]; [apply keeps_appendChild | by apply keeps_dom].
Qed.

Lemma keeps_getAttribute (e x : nat) (name : string) :
  keeps e (getAttribute x name).
Proof.
  apply keeps_bind; [apply keeps_node_at | intros [v|v|tag' attrs' cs']];
    by apply keeps_dom.
Qed.

Lemma keeps_tagName (e x : nat) : keeps e (tagName x).
Proof.
  apply keeps_bind; [apply keeps_node_at | intros [v|v|tag' attrs' cs']];
    by apply keeps_dom.
Qed.

Lemma keeps_children (e x : nat) : keeps e (children x).
Proof.
  apply keeps_bind; [apply keeps_childNodes | intros cs].
  apply keeps_bind; [apply keeps_get_state | intros st'; apply keeps_ret].
Qed.

Lemma keeps_translateTextOrNull (e : nat) (value : option string)
    (lang : string) :
  keeps e (translateTextOrNull translate value lang).
Proof.
  destruct value as [text|]; [apply keeps_translateText |].
  apply keeps_dom. intros st. cbn.
  unfold mbind, M_bind, get_state.
  by destruct (translationCache st !! cacheKey lang "null").
Qed.

(** One step of the proof that a script fragment keeps the attribute
    [k], for the fragments that set other attributes only. *)
Ltac attr_step :=
  first
    [ apply keeps_attr_setAttribute; discriminate
    | apply keeps_attr_for_of; intros ?
    | apply keeps_attr_try_catch; [|intros ?]
    | apply keeps_attr_of_keeps;
      first
        [ apply keeps_ret | apply keeps_translateText
        | apply keeps_translateTextOrNull
        | apply keeps_textContent | apply keeps_set_textContent
        | apply keeps_set_nodeValue | apply keeps_childNodes
        | apply keeps_children | apply keeps_getAttribute
        | apply keeps_tagName | apply keeps_node_at
        | apply keeps_head_appendChild | apply keeps_alloc
        | apply keeps_console_log | apply keeps_get_state
        | apply keeps_translateElementText_index
        | apply keeps_translateElementText_sibling
        | apply keeps_dom; intros ?; apply querySelector_state
        | apply keeps_dom; intros ?; apply querySelectorAll_state
        | apply keeps_dom; reflexivity ]
    | apply keeps_attr_bind; [|intros ?]
    | match goal with
      | |- keeps_attr _ _ (match ?x with _ => _ end) => destruct x
      | |- keeps_attr _ _ (let _ := _ in _) => cbv zeta
      end ].
Ltac attr_tac := repeat attr_step.

Lemma saves_attr_bind {A B} (e : nat) (k v lang : string) (m : M A)
    (f : A → M B) :
  keeps_attr e k m → (∀ a, saves_attr e k v lang (f a)) →
  saves_attr e k v lang (m ≫= f).
Proof.
  intros Hm Hf st H. specialize (Hm st v H).
  unfold mbind, M_bind. destruct (m st) as [st1 [a|err]]; cbn [fst] in *.
  - by apply Hf.
  - done.
Qed.

Lemma saves_attr_save (e : nat) (k v lang filePath relativePath : string) :
  saves_attr e k v lang (save writable filePath relativePath lang).
Proof.
  intros st H. unfold save. destruct (writable _ _ _); [|done].
  cbn. eexists. split; [apply last_snoc | done].
Qed.

Lemma saves_attr_run {A} (e : nat) (k v lang : string) (m : M A) (st : State) :
  saves_attr e k v lang m →
  doc_attr (dom st) e k v →
  match m st with
  | (st', Ok _) =>
      ∃ f, last (written st') = Some f
           ∧ out_lang f = lang
           ∧ doc_attr (out_document f) e k v
  | (_, Throw _) => True
  end.
Proof. intros H. apply H. Qed.

(** The first [html] element of a document whose root is one is the
    root. *)
Lemma querySelector_html (st : State) (attrs : list (string * string))
    (cs : list nat) :
  nodes (dom st) !! documentElement (dom st) = Some (Element "html" attrs cs) →
  querySelector (tag "html") st = (st, Ok (Some (documentElement (dom st)))).
Proof.
  intros Hroot. unfold querySelector, querySelectorAll, mbind, M_bind, get_state.
  unfold mret, M_ret. cbn [elements]. rewrite Hroot.
  cbn [List.filter]. rewrite Hroot. done.
Qed.

Ltac saves_tac :=
  repeat first
    [ apply saves_attr_save
    | apply saves_attr_bind; [attr_tac | intros ?] ].

Lemma translateFor_saves_lang_index (content : document)
    (filePath relativePath lang : string) (attrs : list (string * string))
    (cs : list nat) (st : State) :
  nodes content !! documentElement content = Some (Element "html" attrs cs) →
  match IndexJs.translateFor translate writable content filePath relativePath
          lang st with
  | (st', Ok _) =>
      ∃ f, last (written st') = Some f
           ∧ out_lang f = lang
           ∧ doc_attr (out_document f) (documentElement content) "lang" lang
  | (_, Throw _) => True
  end.
Proof.
  intros Hroot. unfold IndexJs.translateFor.
  rewrite (bind_run (set_dom content)). cbn [set_dom].
  rewrite (bind_run (querySelector (tag "html"))).
  rewrite (querySelector_html (with_dom st content) attrs cs Hroot).
  cbn [dom with_dom].
  rewrite (bind_run (setAttribute _ _ _)).
  rewrite (setAttribute_run (with_dom st content) _ _ _ _ _ _ Hroot).
  cbn [dom with_dom nodes documentElement].
  match goal with |- match ?m ?s with _ => _ end =>
    apply (saves_attr_run (documentElement content) "lang" lang lang m s) end.
  - unfold IndexJs.translateMetaContent, IndexJs.translateAnchorElement.
    saves_tac.
  - exists "html", (attr_set "lang" lang attrs), cs. cbn.
    split; [|apply attr_get_set].
    apply list_lookup_insert_eq. by apply lookup_lt_Some in Hroot.
Qed.

Lemma translateFor_saves_lang_sibling (content : document)
    (filePath relativePath lang : string) (languages : list LocaleDescriptor)
    (attrs : list (string * string)) (cs : list nat) (st : State) :
  nodes content !! documentElement content = Some (Element "html" attrs cs) →
  match Part000.translateFor translate writable content filePath relativePath
          lang languages st with
  | (st', Ok _) =>
      ∃ f, last (written st') = Some f
           ∧ out_lang f = lang
           ∧ doc_attr (out_document f) (documentElement content) "lang" lang
  | (_, Throw _) => True
  end.
Proof.
  intros Hroot. unfold Part000.translateFor.
  rewrite (bind_run (set_dom content)). cbn [set_dom].
  rewrite (bind_run (querySelector (tag "html"))).
  rewrite (querySelector_html (with_dom st content) attrs cs Hroot).
  cbn [dom with_dom].
  rewrite (bind_run (setAttribute _ _ _)).
  rewrite (setAttribute_run (with_dom st content) _ _ _ _ _ _ Hroot).
  cbn [dom with_dom nodes documentElement].
  match goal with |- match ?m ?s with _ => _ end =>
    apply (saves_attr_run (documentElement content) "lang" lang lang m s) end.
  - unfold Part000.addAlternates, Part000.translateSelected,
      Part000.updateAnchorHref, hasAttribute.
    saves_tac.
  - exists "html", (attr_set "lang" lang attrs), cs. cbn.
    split; [|apply attr_get_set].
    apply list_lookup_insert_eq. by apply lookup_lt_Some in Hroot.
Qed.

(** X13.  Every file written for a language, by either script, carries
    the language in the [lang] attribute of its [html] element. *)
Theorem written_file_has_lang (content : document)
    (filePath relativePath lang : string) (languages : list LocaleDescriptor)
    (attrs : list (string * string)) (cs : list nat) (st st' : State) :
  nodes content !! documentElement content = Some (Element "html" attrs cs) →
  IndexJs.translateFor translate writable content filePath relativePath lang st
    = (st', Ok tt)
  ∨ Part000.translateFor translate writable content filePath relativePath lang
      languages st = (st', Ok tt) →
  ∃ f, last (written st') = Some f
       ∧ out_lang f = lang
       ∧ doc_attr (out_document f) (documentElement content) "lang" lang.
Proof.
  intros Hroot [H|H].
  - pose proof (translateFor_saves_lang_index content filePath relativePath
                  lang attrs cs st Hroot) as Hs.
    by rewrite H in Hs.
  - pose proof (translateFor_saves_lang_sibling content filePath relativePath
                  lang languages attrs cs st Hroot) as Hs.
    by rewrite H in Hs.
Qed.

End Attributes.

(** ** The canonical link of a written file *)

Section CanonicalLink.

Variable translate : list (string * string) → string → string → option string.
Variable writable : string → string → string → bool.























End CanonicalLink.

(** ** The walk through the input folder *)

Section WalkFacts.

Variable translateHTML : document → string → string → M unit.

Lemma dirent_induction (P : dirent → Prop) :
  (∀ name content, P (File name content)) →
  (∀ name entries, Forall P entries → P (Directory name entries)) →
  (∀ name, P (Other name)) →
  ∀ entry, P entry.
Proof.
  intros HF HD HO. fix IH 1. intros [name content|name entries|name].
  - apply HF.
  - apply HD. induction entries as [|e es IHes]; constructor; [apply IH | apply IHes].
  - apply HO.
Qed.

Lemma bind_ret_unit (m : M unit) (st : State) : (m ;; mret tt) st = m st.
Proof. rewrite bind_run. by destruct (m st) as [st1 [[]|err]]. Qed.

Lemma for_of_app {A} (xs ys : list A) (body : A → M unit) (st : State) :
  for_of (xs ++ ys) body st = (for_of xs body ;; for_of ys body) st.
Proof.
  revert st. induction xs as [|x xs IH]; intros st; [done |].
  cbn [app for_of]. rewrite !bind_run.
  destruct (body x st) as [st1 [[]|err]]; [|done].
  by rewrite IH, bind_run.
Qed.

Lemma processEntry_flat (entry : dirent) :
  ∀ folderPath relativePath st,
    processEntry translateHTML folderPath relativePath entry st
    = for_of (html_files_of folderPath relativePath entry) (translate_file translateHTML) st.
Proof.
  induction entry as [name content|name entries IH|name] using dirent_induction;
    intros folderPath relativePath st.
  - cbn [processEntry html_files_of]. destruct (endsWith name ".html"); [|done].
    cbn [for_of]. by rewrite bind_ret_unit.
  - cbn [processEntry html_files_of]. revert st.
    induction IH as [|e es He _ IHes]; intros st; [done |].
    rewrite for_of_app, !bind_run, He.
    destruct (for_of _ (translate_file translateHTML) st) as [st1 [[]|err]]; [|done].
    apply IHes.
  - done.
Qed.

(** X15.  [processFolder] hands to [translateHTML], one after the other
    and in the order of the walk, exactly the files whose name ends in
    [.html], at any depth, each with the relative path of its folder;
    other files, other kinds of entries and folders without such files
    leave no trace.  When [translateHTML] throws, the files after it are
    not processed. *)
Theorem processFolder_flat (entries : list dirent)
    (folderPath relativePath : list string) (st : State) :
  processFolder translateHTML entries folderPath relativePath st
  = for_of (html_files entries folderPath relativePath) (translate_file translateHTML) st.
Proof.
  unfold processFolder, html_files. revert st.
  induction entries as [|e es IH]; intros st; [done |].
  cbn [for_of flat_map]. rewrite for_of_app, !bind_run, processEntry_flat.
  destruct (for_of _ (translate_file translateHTML) st) as [st1 [[]|err]]; [|done].
  apply IH.
Qed.

Lemma join_shape (segments : list string) :
  segments ≠ [] → Forall plain_name segments →
  plain_name (join "/" segments).
Proof.
  induction segments as [|s segments IH]; [done |]. intros _ H.
  apply Forall_cons in H as [[Hs1 Hs2] H].
  destruct segments as [|s' segments]; [done |].
  rewrite join_cons by done.
  destruct (IH ltac:(done) H) as [HJ1 HJ2]. split.
  - destruct s; [done | by rewrite app_cons].
  - rewrite <- app_assoc_s, endsWith_app_nonempty; [done | done |].
    destruct (join "/" (s' :: segments)); [done | cbn; lia].
Qed.

Lemma render_shape (segments : list string) :
  Forall plain_name segments → plain_name (render segments).
Proof.
  destruct segments as [|s segments]; [done |]. intros H.
  by apply join_shape.
Qed.

Lemma html_files_of_shape (entry : dirent) :
  plain_names entry →
  ∀ folderPath relativePath,
    Forall plain_name relativePath →
    Forall (λ f, plain_name f.2) (html_files_of folderPath relativePath entry).
Proof.
  induction entry as [name content|name entries IH|name] using dirent_induction;
    intros Hnames folderPath relativePath Hrel.
  - cbn [html_files_of]. destruct (endsWith name ".html"); [|done].
    apply Forall_singleton. cbn [snd]. unfold dirname.
    rewrite removelast_last. by apply render_shape.
  - cbn [html_files_of]. destruct Hnames as [Hname Hall].
    induction IH as [|e es He _ IHes]; [done |].
    destruct Hall as [He' Hall]. apply Forall_app. split.
    + apply He; [done |]. apply Forall_app. by split; [|apply Forall_singleton].
    + by apply IHes.
  - done.
Qed.

(** X16.  The relative path that [processFolder] hands to
    [translateHTML] is never empty and never ends in a slash, for any
    tree of entries with proper names: it is [.] for a file of the input
    folder itself, and the directories from the input folder down,
    joined by slashes, for a file below. *)
Theorem processFolder_relative_paths (entries : list dirent)
    (folderPath : list string) :
  Forall plain_names entries →
  Forall (λ f, plain_name f.2) (html_files entries folderPath [])
  ∧ (∀ name content,
       endsWith name ".html" = true →
       html_files [File name content] folderPath []
       = [(content, render (folderPath ++ [name]), ".")])
  ∧ (∀ dir name content,
       endsWith name ".html" = true →
       html_files [Directory dir [File name content]] folderPath []
       = [(content, render (folderPath ++ [dir; name]), dir)]).
Proof.
  intros Hnames. split; [|split].
  - unfold html_files. induction Hnames as [|e es He _ IH]; [done |].
    cbn [flat_map]. apply Forall_app. split; [|done].
    by apply html_files_of_shape.
  - intros name content Hhtml. unfold html_files. cbn. by rewrite Hhtml.
  - intros dir name content Hhtml. unfold html_files.
    cbn [flat_map html_files_of]. rewrite Hhtml, !app_nil_r, <- app_assoc.
    done.
Qed.

End WalkFacts.

(** ** The alternate links *)

Section Alternates.

Lemma alternate_turn_sibling (relativePath : string)
    (languages : list LocaleDescriptor) :
  Part000.addAlternates relativePath languages
  = for_of languages (λ o,
      alternate_turn (code o) (Part000.alternateUrl relativePath (code o))).
Proof. reflexivity. Qed.

Lemma alternate_turn_index (relativePath : string)
    (languages : list LocaleDescriptor) :
  IndexJs.updateAlternates relativePath languages
  = for_of languages (λ o,
      alternate_turn (code o)
        (IndexJs.constructCanonicalUrl relativePath (code o))).
Proof. reflexivity. Qed.

(** [querySelector] finds an alternate link exactly when one is
    attached. *)
Lemma querySelector_alternate (st : State) (lang : string) :
  (∃ x, querySelector (alternateLink lang) st = (st, Ok (Some x)))
  ↔ has_alternate (dom st) lang.
Proof.
  unfold querySelector, querySelectorAll, mbind, M_bind, get_state, mret, M_ret.
  split.
  - intros [x [= Hhead]]. exists x.
    apply head_Some_elem_of, list_elem_of_In, filter_In in Hhead as [Hin Hm].
    split; [done |].
    destruct (nodes (dom st) !! x) as [n|]; [by exists n | done].
  - intros (x & Hin & n & Hn & Hm).
    destruct (head (List.filter _ _)) as [y|] eqn:Hhead; [by exists y |].
    exfalso. apply head_None in Hhead.
    assert (In x (List.filter
                    (λ id, match nodes (dom st) !! id with
                           | Some n => matches (alternateLink lang) n
                           | None => false
                           end)
                    (elements (S (length (nodes (dom st)))) (nodes (dom st))
                       (documentElement (dom st))))) as Hx.
    { apply filter_In. split; [done |]. by rewrite Hn. }
    by rewrite Hhead in Hx.
Qed.

Lemma querySelector_None (st : State) (lang : string) :
  ¬ has_alternate (dom st) lang →
  querySelector (alternateLink lang) st = (st, Ok None).
Proof.
  intros Hno.
  destruct (querySelector (alternateLink lang) st) as [st1 r] eqn:E.
  pose proof (querySelector_state (alternateLink lang) st) as Hs.
  rewrite E in Hs. cbn in Hs. subst st1.
  assert (∃ o, r = Ok o) as [o ->].
  { revert E. unfold querySelector, querySelectorAll, mbind, M_bind, get_state,
      mret, M_ret. intros [= <-]. eauto. }
  destruct o as [x|]; [|done].
  exfalso. apply Hno, querySelector_alternate. eauto.
Qed.

(** A language that has its alternate link gets no second one. *)
Lemma alternate_turn_found (st : State) (lang href : string) :
  has_alternate (dom st) lang → alternate_turn lang href st = (st, Ok tt).
Proof.
  intros [x Hx]%querySelector_alternate.
  unfold alternate_turn. by rewrite bind_run, Hx.
Qed.

Lemma extends_refl (ns : list node) : extends ns ns.
Proof. intros i tag attrs cs Hi. by exists cs. Qed.

Lemma extends_trans (ns1 ns2 ns3 : list node) :
  extends ns1 ns2 → extends ns2 ns3 → extends ns1 ns3.
Proof.
  intros H12 H23 i tag attrs cs Hi.
  destruct (H12 _ _ _ _ Hi) as (cs2 & Hi2 & Hin2).
  destruct (H23 _ _ _ _ Hi2) as (cs3 & Hi3 & Hin3).
  exists cs3. split; [done | auto].
Qed.

Lemma extends_alloc (ns : list node) (n : node) : extends ns (ns ++ [n]).
Proof.
  intros i tag attrs cs Hi. exists cs. split; [|done].
  by apply lookup_app_l_Some.
Qed.

Lemma extends_appendChild (ns : list node) (h child : nat) (tag : string)
    (attrs : list (string * string)) (cs : list nat) :
  ns !! h = Some (Element tag attrs cs) →
  extends ns (<[h := Element tag attrs (cs ++ [child])]> ns).
Proof.
  intros Hh i tag' attrs' cs' Hi. destruct (decide (i = h)) as [->|Hne].
  - rewrite Hh in Hi. injection Hi as <- <- <-. exists (cs ++ [child]).
    split; [|intros c Hc; apply in_or_app; by left].
    apply list_lookup_insert_eq. by apply lookup_lt_Some in Hh.
  - exists cs'. split; [|done]. by rewrite list_lookup_insert_ne.
Qed.

(** What is below an element stays below it when the heap grows. *)
Lemma elements_extends (ns ns' : list node) :
  extends ns ns' →
  ∀ fuel fuel' id x,
    fuel ≤ fuel' → In x (elements fuel ns id) → In x (elements fuel' ns' id).
Proof.
  intros Hext. induction fuel as [|fuel IH]; intros fuel' id x Hle Hin;
    [done |].
  destruct fuel' as [|fuel']; [lia |]. cbn in *.
  destruct (ns !! id) as [[v|v|tag attrs cs]|] eqn:Hid; try done.
  destruct (Hext _ _ _ _ Hid) as (cs' & -> & Hincl).
  destruct Hin as [->|Hin]; [by left | right].
  apply in_flat_map in Hin as (c & Hc & Hx). apply in_flat_map.
  exists c. split; [auto |]. apply IH; [lia | done].
Qed.

Lemma alternate_at_extends (ns ns' : list node) (root : nat)
    (lang : string) (x : nat) :
  extends ns ns' → length ns ≤ length ns' →
  alternate_at (Document ns root) lang x →
  alternate_at (Document ns' root) lang x.
Proof.
  intros Hext Hlen (Hin & n & Hn & Hm). split.
  - cbn [nodes documentElement] in *.
    apply (elements_extends ns ns' Hext (S (length ns))); [lia | done].
  - cbn [nodes documentElement] in *. destruct n as [v|v|tag attrs cs]; try done.
    destruct (Hext _ _ _ _ Hn) as (cs' & Hx & _).
    exists (Element tag attrs cs'). by split.
Qed.

Lemma elements_self (fuel : nat) (ns : list node) (x : nat) (tag : string)
    (attrs : list (string * string)) (cs : list nat) :
  ns !! x = Some (Element tag attrs cs) → In x (elements (S fuel) ns x).
Proof. intros Hx. cbn. rewrite Hx. by left. Qed.

Lemma elements_child (fuel : nat) (ns : list node) (p c x : nat)
    (tag : string) (attrs : list (string * string)) (cs : list nat) :
  ns !! p = Some (Element tag attrs cs) → In c cs →
  In x (elements fuel ns c) → In x (elements (S fuel) ns p).
Proof.
  intros Hp Hc Hx. cbn. rewrite Hp. right. apply in_flat_map. by exists c.
Qed.

(** The link the loop builds for a language. *)
Lemma setAttribute_last (st : State) (ns : list node) (tag name value : string)
    (attrs : list (string * string)) (cs : list nat) :
  nodes (dom st) = ns ++ [Element tag attrs cs] →
  setAttribute (length ns) name value st
  = (with_dom st
       (Document (ns ++ [Element tag (attr_set name value attrs) cs])
                 (documentElement (dom st))),
     Ok tt).
Proof.
  intros Hns. erewrite setAttribute_run.
  2:{ rewrite Hns. by apply list_lookup_middle. }
  rewrite Hns. do 3 f_equal.
  rewrite insert_app_r_alt by lia. by rewrite Nat.sub_diag.
Qed.

Lemma alternate_turn_missing (st : State) (lang href : string) :
  ¬ has_alternate (dom st) lang →
  alternate_turn lang href st
  = head_appendChild (length (nodes (dom st)))
      (with_dom st
         (Document
            (nodes (dom st)
             ++ [Element "link"
                   [("rel", "alternate"); ("hreflang", lang); ("href", href)]
                   []])
            (documentElement (dom st)))).
Proof.
  intros Hno. unfold alternate_turn.
  rewrite bind_run, querySelector_None by done.
  rewrite bind_run. unfold createElement, alloc.
  rewrite bind_run.
  erewrite (setAttribute_last _ (nodes (dom st))); [|reflexivity].
  rewrite bind_run.
  erewrite (setAttribute_last _ (nodes (dom st))); [|reflexivity].
  rewrite bind_run.
  erewrite (setAttribute_last _ (nodes (dom st))); [|reflexivity].
  reflexivity.
Qed.

(** [document.head.appendChild] either throws and changes nothing, or
    appends the child to an element that is a child of the root. *)
Lemma head_appendChild_cases (child : nat) (st : State) :
  (∃ e, head_appendChild child st = (st, Throw e))
  ∨ (∃ h tag attrs cs rtag rattrs rcs,
       nodes (dom st) !! documentElement (dom st)
       = Some (Element rtag rattrs rcs)
       ∧ In h rcs
       ∧ nodes (dom st) !! h = Some (Element tag attrs cs)
       ∧ head_appendChild child st
         = (with_dom st
              (Document (<[h := Element tag attrs (cs ++ [child])]>
                           (nodes (dom st)))
                        (documentElement (dom st))),
            Ok tt)).
Proof.
  unfold head_appendChild, document_head, appendChild, node_at, update_node,
    throw, mbind, M_bind, get_state, mret, M_ret.
  cbn beta iota.
  destruct (nodes (dom st) !! documentElement (dom st))
    as [[v|v|rtag rattrs rcs]|] eqn:Hroot; try (left; by eexists).
  destruct (head (List.filter _ rcs)) as [h|] eqn:Hhead; [|left; by eexists].
  apply head_Some_elem_of, list_elem_of_In, filter_In in Hhead as [Hin Hh].
  destruct (nodes (dom st) !! h) as [[v|v|tag attrs cs]|] eqn:Hnode; try done.
  right. exists h, tag, attrs, cs, rtag, rattrs, rcs. by rewrite Hnode.
Qed.

Lemma has_alternate_dec (st : State) (lang : string) :
  has_alternate (dom st) lang ∨ ¬ has_alternate (dom st) lang.
Proof.
  destruct (head (List.filter
                    (λ id, match nodes (dom st) !! id with
                           | Some n => matches (alternateLink lang) n
                           | None => false
                           end)
                    (elements (S (length (nodes (dom st)))) (nodes (dom st))
                       (documentElement (dom st))))) as [x|] eqn:Hhead.
  - left. apply querySelector_alternate. exists x.
    unfold querySelector, querySelectorAll, mbind, M_bind, get_state, mret,
      M_ret. by rewrite Hhead.
  - right. intros [x Hx]%querySelector_alternate. revert Hx.
    unfold querySelector, querySelectorAll, mbind, M_bind, get_state, mret,
      M_ret. by rewrite Hhead.
Qed.

Lemma link_matches (lang href : string) (cs : list nat) :
  matches (alternateLink lang)
    (Element "link"
       [("rel", "alternate"); ("hreflang", lang); ("href", href)] cs)
  = true.
Proof.
  cbn. unfold attr_matches. cbn. by rewrite String.eqb_refl.
Qed.

(** A turn that returns leaves the document with an alternate link of
    its language. *)
Lemma alternate_turn_adds (st st' : State) (lang href : string) :
  alternate_turn lang href st = (st', Ok tt) →
  has_alternate (dom st') lang.
Proof.
  intros Hrun. destruct (has_alternate_dec st lang) as [Hhas|Hno].
  { rewrite alternate_turn_found in Hrun by done. by injection Hrun as <-. }
  rewrite alternate_turn_missing in Hrun by done.
  set (link := Element "link" _ _) in Hrun.
  set (st4 := with_dom st _) in Hrun.
  destruct (head_appendChild_cases (length (nodes (dom st))) st4)
    as [[e He]|(h & tag & attrs & cs & rtag & rattrs & rcs
                & Hroot & Hin & Hnode & Happ)].
  { rewrite He in Hrun. discriminate Hrun. }
  rewrite Happ in Hrun. injection Hrun as <-.
  subst st4. cbn [dom with_dom nodes documentElement] in *.
  set (ns := nodes (dom st)) in *. set (root := documentElement (dom st)) in *.
  set (ns4 := ns ++ [link]) in *.
  pose proof (extends_appendChild ns4 h (length ns) tag attrs cs Hnode) as Hext.
  set (ns5 := <[h := _]> ns4) in *.
  assert (ns4 !! length ns = Some link) as Hl4 by by apply list_lookup_middle.
  destruct (Hext _ _ _ _ Hl4) as (lcs & Hl5 & _).
  destruct (Hext _ _ _ _ Hroot) as (rcs' & Hroot5 & Hincl).
  assert (ns5 !! h = Some (Element tag attrs (cs ++ [length ns]))) as Hh5.
  { apply list_lookup_insert_eq. by apply lookup_lt_Some in Hnode. }
  assert (length ns5 = S (length ns)) as Hlen.
  { subst ns5 ns4. rewrite length_insert, length_app. cbn. lia. }
  assert (∃ k, length ns = S k) as [k Hk].
  { destruct ns as [|n0 ns0] eqn:Hns; [|by eexists]. exfalso.
    subst ns4. cbn in Hroot, Hnode.
    destruct h as [|h]; [|done]. destruct root as [|root']; [|done].
    subst link. injection Hroot as <- <- <-. done. }
  exists (length ns). split.
  - cbn [nodes documentElement]. rewrite Hlen.
    clearbody ns5. clear Happ Hext Hl4 Hnode Hroot Hlen.
    revert Hl5 Hh5 Hk. generalize (length ns). intros l Hl5 Hh5 ->.
    eapply elements_child; [exact Hroot5 | exact (Hincl _ Hin) |].
    eapply elements_child; [exact Hh5 | apply in_or_app; right; by left |].
    eapply elements_self. exact Hl5.
  - cbn [nodes]. eexists. split; [exact Hl5 |]. apply link_matches.
Qed.

(** A turn takes no alternate link away, whether it returns or throws. *)
Lemma alternate_turn_keeps (st : State) (lang href c : string) :
  has_alternate (dom st) c →
  has_alternate (dom (alternate_turn lang href st).1) c.
Proof.
  intros [x Hx]. destruct (has_alternate_dec st lang) as [Hhas|Hno].
  { rewrite alternate_turn_found by done. by exists x. }
  rewrite alternate_turn_missing by done.
  set (link := Element "link" _ _).
  set (st4 := with_dom st _).
  assert (alternate_at (dom st4) c x) as Hx4.
  { subst st4. cbn [dom with_dom].
    destruct (dom st) as [ns root] eqn:Hdom. cbn [nodes documentElement].
    eapply alternate_at_extends; [apply extends_alloc | | done].
    rewrite length_app. lia. }
  destruct (head_appendChild_cases (length (nodes (dom st))) st4)
    as [[e ->]|(h & tag & attrs & cs & rtag & rattrs & rcs
                & Hroot & Hin & Hnode & ->)].
  { by exists x. }
  exists x. cbn [fst dom with_dom].
  destruct (dom st4) as [ns4 root] eqn:Hdom. cbn [nodes documentElement] in *.
  eapply alternate_at_extends; [by apply extends_appendChild | | done].
  by rewrite length_insert.
Qed.

Lemma turns_keep (url : LocaleDescriptor → string)
    (languages : list LocaleDescriptor) (st : State) (c : string) :
  has_alternate (dom st) c →
  has_alternate
    (dom (for_of languages (λ o, alternate_turn (code o) (url o)) st).1) c.
Proof.
  revert st. induction languages as [|o ls IH]; intros st Hc; [done |].
  cbn [for_of]. rewrite bind_run.
  pose proof (alternate_turn_keeps st (code o) (url o) c Hc) as H1.
  destruct (alternate_turn (code o) (url o) st) as [st1 [[]|e]];
    cbn [fst] in H1 |- *; [by apply IH | done].
Qed.

Lemma turns_complete (url : LocaleDescriptor → string)
    (languages : list LocaleDescriptor) (st st' : State) :
  for_of languages (λ o, alternate_turn (code o) (url o)) st = (st', Ok tt) →
  ∀ o, In o languages → has_alternate (dom st') (code o).
Proof.
  revert st. induction languages as [|a ls IH]; intros st Hrun o Hin; [done |].
  cbn [for_of] in Hrun. rewrite bind_run in Hrun.
  destruct (alternate_turn (code a) (url a) st) as [st1 [[]|e]] eqn:Hturn;
    [|discriminate Hrun].
  destruct Hin as [<-|Hin]; [|by eapply IH].
  apply alternate_turn_adds in Hturn.
  pose proof (turns_keep url ls st1 _ Hturn) as Hkept.
  by rewrite Hrun in Hkept.
Qed.

Lemma turns_saturated (url : LocaleDescriptor → string)
    (languages : list LocaleDescriptor) (st : State) :
  (∀ o, In o languages → has_alternate (dom st) (code o)) →
  for_of languages (λ o, alternate_turn (code o) (url o)) st = (st, Ok tt).
Proof.
  induction languages as [|a ls IH]; intros Hall; [done |].
  cbn [for_of]. rewrite bind_run, alternate_turn_found by (apply Hall; by left).
  apply IH. intros o Hin. apply Hall. by right.
Qed.

(** X17.  The loop that adds the alternate links, [addAlternates] of
    [part_000] and [updateAlternates] of [index.js]: when it returns,
    the document has an attached [link rel=alternate] for the code of
    every language of the registry, one that [querySelector] finds, and
    every alternate link that was found before the loop is still found
    after it. *)
Theorem alternates_complete (relativePath : string)
    (languages : list LocaleDescriptor) (st st' : State) :
  Part000.addAlternates relativePath languages st = (st', Ok tt)
  ∨ IndexJs.updateAlternates relativePath languages st = (st', Ok tt) →
  (∀ o, In o languages → alternate_found st' (code o))
  ∧ (∀ lang, alternate_found st lang → alternate_found st' lang).
Proof.
  intros Hrun.
  assert (∃ url,
            for_of languages (λ o, alternate_turn (code o) (url o)) st
            = (st', Ok tt)) as [url Hturns].
  { destruct Hrun as [Hrun|Hrun].
    - rewrite alternate_turn_sibling in Hrun.
      by exists (λ o, Part000.alternateUrl relativePath (code o)).
    - rewrite alternate_turn_index in Hrun.
      by exists (λ o, IndexJs.constructCanonicalUrl relativePath (code o)). }
  split.
  - intros o Hin. apply querySelector_alternate.
    exact (turns_complete url languages st st' Hturns o Hin).
  - intros lang Hfound%querySelector_alternate.
    apply querySelector_alternate.
    pose proof (turns_keep url languages st lang Hfound) as Hkept.
    by rewrite Hturns in Hkept.
Qed.

(** X18.  The same loop never replaces or updates a link that exists:
    when [querySelector] finds an alternate link for every language of
    the registry, the loop returns and leaves the state as it is,
    whatever the path of the file, so the [href] of a link that is
    there is not brought in line with the file. *)
Theorem alternates_never_updated (relativePath : string)
    (languages : list LocaleDescriptor) (st : State) :
  (∀ o, In o languages → alternate_found st (code o)) →
  Part000.addAlternates relativePath languages st = (st, Ok tt)
  ∧ IndexJs.updateAlternates relativePath languages st = (st, Ok tt).
Proof.
  intros Hall.
  assert (∀ o, In o languages → has_alternate (dom st) (code o)) as Hhas.
  { intros o Hin. apply querySelector_alternate. by apply Hall. }
  split.
  - rewrite alternate_turn_sibling. by apply turns_saturated.
  - rewrite alternate_turn_index. by apply turns_saturated.
Qed.

End Alternates.

(** ** Writing the text back *)

Section WriteBack.

Variable translate : list (string * string) → string → string → option string.





End WriteBack.

(** ** Examples *)

Section MoreExamples.

Import Fixtures Samples.

Lemma translateText_plain_total_witness :
  ∃ st' v,
    translateText failing "Hello" "fr" initial = (st', Ok v)
    ∧ (translationCache st' !! cacheKey "fr" "Hello" = Some v
       ∨ (v = "Hello" ∧ translationCache st' !! cacheKey "fr" "Hello" = None)).
Proof.
  apply (translateText_plain_total failing initial "Hello" "fr").
  reflexivity.
Defined.


Lemma translateMetaContent_without_content_witness :
  IndexJs.translateMetaContent tagging
    (tag_with "meta" [("name", "description")]) "fr"
    (with_dom initial described)
  = (with_dom initial described, Throw (TypeError "toLowerCase of null")).
Proof.
  apply (translateMetaContent_without_content tagging
           (with_dom initial described)
           (tag_with "meta" [("name", "description")]) "fr" 2 "meta"
           [("name", "description")] []);
    reflexivity.
Defined.


Lemma translateElementText_returns_witness :
  (∃ st', Part000.translateElementText failing 5 "fr" (with_dom initial page)
          = (st', Ok tt))
  ∧ (∃ st', IndexJs.translateElementText failing 5 "fr" (with_dom initial page)
            = (st', Ok tt)).
Proof.
  apply (translateElementText_returns failing (with_dom initial page) 5 "fr").
  exists "p", [], [6]. reflexivity.
Defined.


Lemma canonical_url_variants_agree_witness :
  IndexJs.constructCanonicalUrl "docs/guide" "fr"
  = Part000.canonicalUrl "docs/guide" "fr".
Proof.
  apply (canonical_url_variants_agree "docs/guide" "fr"); reflexivity.
Defined.

Lemma alternate_href_not_canonical_witness :
  endsWith (Part000.canonicalUrl "docs" "fr") "/" = true
  ∧ endsWith (Part000.alternateUrl "docs" "fr") "/" = false
  ∧ Part000.alternateUrl "docs" "fr" ≠ Part000.canonicalUrl "docs" "fr".
Proof.
  apply (alternate_href_not_canonical "docs" "fr");
    [intros H; discriminate H | reflexivity].
Defined.

Lemma translateHTML_first_loop_lost_witness :
  (∃ d, IndexJs.translateHTML tagging always page "en/index.html" "."
          languages initial
        = (with_dom (IndexJs.createFiles tagging always page "en/index.html"
                       "." languages initial).1 d,
           (IndexJs.createFiles tagging always page "en/index.html" "."
              languages initial).2))
  ∧ (∃ d, Part000.translateHTML tagging always page "en/index.html" "."
            languages initial
          = (with_dom (Part000.createFiles tagging always page "en/index.html"
                         "." languages initial).1 d,
             (Part000.createFiles tagging always page "en/index.html" "."
                languages initial).2))
  ∧ (∃ d, IndexJs.translateHTML tagging always headless "en/index.html" "."
            languages initial
          = (with_dom initial d, Throw (TypeError "appendChild of null")))
  ∧ (∃ d, Part000.translateHTML tagging always headless "en/index.html" "."
            languages initial
          = (with_dom initial d, Throw (TypeError "appendChild of null"))).
Proof.
  destruct (translateHTML_first_loop_lost tagging always page "en/index.html"
              "." languages initial) as (H1 & H2 & _ & _).
  destruct (translateHTML_first_loop_lost tagging always headless
              "en/index.html" "." languages initial) as (_ & _ & H3 & H4).
  split; [apply H1; reflexivity |].
  split; [apply H2; reflexivity |].
  split; [apply H3; reflexivity | apply H4; reflexivity].
Defined.

Lemma written_file_has_lang_witness :
  (∃ f, last (written (IndexJs.translateFor tagging always blank
                         "en/index.html" "." "fr" initial).1) = Some f
        ∧ out_lang f = "fr"
        ∧ doc_attr (out_document f) 0 "lang" "fr")
  ∧ (∃ f, last (written (Part000.translateFor tagging always blank
                           "en/index.html" "." "fr" languages initial).1)
          = Some f
          ∧ out_lang f = "fr"
          ∧ doc_attr (out_document f) 0 "lang" "fr").
Proof.
  split.
  - apply (written_file_has_lang tagging always blank "en/index.html" "." "fr"
             languages [] [1; 2] initial);
      [reflexivity | left; vm_compute; reflexivity].
  - apply (written_file_has_lang tagging always blank "en/index.html" "." "fr"
             languages [] [1; 2] initial);
      [reflexivity | right; vm_compute; reflexivity].
Defined.


Lemma processFolder_relative_paths_witness :
  Forall (λ f, plain_name f.2) (html_files site ["en"] [])
  ∧ html_files site ["en"] []
    = [(blank, "en/index.html", "."); (page, "en/docs/guide.html", "docs")].
Proof.
  split; [|reflexivity].
  apply (processFolder_relative_paths site ["en"]).
  repeat first [ apply Forall_cons; split | apply Forall_nil ];
    cbn; repeat split; first [ reflexivity | intros H; discriminate H ].
Defined.

Lemma alternates_complete_witness :
  alternate_found
    (Part000.addAlternates "docs" languages (with_dom initial blank)).1 "fr"
  ∧ alternate_found
      (Part000.addAlternates "docs" languages (with_dom initial blank)).1 "de"
  ∧ alternate_found
      (IndexJs.updateAlternates "docs" languages (with_dom initial blank)).1
      "de".
Proof.
  destruct (alternates_complete "docs" languages (with_dom initial blank)
              (Part000.addAlternates "docs" languages
                 (with_dom initial blank)).1) as [Hsibling _];
    [left; vm_compute; reflexivity |].
  destruct (alternates_complete "docs" languages (with_dom initial blank)
              (IndexJs.updateAlternates "docs" languages
                 (with_dom initial blank)).1) as [Hindex _];
    [right; vm_compute; reflexivity |].
  split; [|split].
  - apply (Hsibling (Locale "fr" true)). left. reflexivity.
  - apply (Hsibling (Locale "de" false)). right. left. reflexivity.
  - apply (Hindex (Locale "de" false)). right. left. reflexivity.
Defined.

Lemma alternates_never_updated_witness :
  let st := (Part000.addAlternates "docs" languages (with_dom initial blank)).1 in
  Part000.addAlternates "other" languages st = (st, Ok tt)
  ∧ IndexJs.updateAlternates "other" languages st = (st, Ok tt).
Proof.
  apply (alternates_never_updated "other" languages
           (Part000.addAlternates "docs" languages (with_dom initial blank)).1).
  intros o [<-|[<-|[]]]; [exists 3 | exists 4]; vm_compute; reflexivity.
Defined.


End MoreExamples.
